(** * The Redis distributed-lock provider of the batch subsystem

    A shallow embedding of [RedisDistlockLocker] (the [redis-distlock]
    leader-lock provider): the lease table [_locks], the resource naming,
    and the [lock] / [unlock] entry points with their helpers [_getLock],
    [_setLock], [_tryExtend] and [_tryAcquire].

    The provider talks to two collaborators that it receives from outside:
    the Redis connection pool ([pool.acquire], [pool.release]) and the
    Redlock primitive ([redlock.lock], [lock.extend], [redlock.unlock]).
    Their calls are the events of a small program monad; an environment
    answers them, and the theorems hold for every environment.  A
    scripted environment, whose world also has a clock and the contents
    of the Lock objects, runs the examples and carries the statements
    about expiry.  The callback-passing style of the JavaScript is read
    in direct style: the arguments a method hands to its callback are
    the result of the corresponding computation.

    After the provider come the SVG output format ([SvgFormat]), two
    parts of the query controller ([QueryController]) and the pgbouncer
    reset of the test support ([DbUtils]). *)

From stdpp Require Import gmap strings list pretty.
From Stdlib Require Import ZArith Ascii.

Open Scope Z_scope.
Open Scope string_scope.
Open Scope list_scope.

(** ** Data *)

(** The error object a Node callback receives as first argument. *)
Definition Err : Type := string.

(** A pooled Redis connection, by identity. *)
Definition Client : Type := nat.

(** A Redlock [Lock] object, by identity: the provider only stores and
    passes references to these objects, it never reads their fields. *)
Definition Lock : Type := nat.

(** An element of [redlock.servers]: the placeholder [{}] the constructor
    passes, or a connection taken from the pool. *)
Inductive Server : Type :=
| EmptyObject
| Connection (client : Client).

#[global] Instance Server_eq_dec : EqDecision Server.
Proof. solve_decision. Defined.

Module REDIS_DISTLOCK.
Definition DB : Z := 5.
Definition PREFIX : string := "batch:locks:".
End REDIS_DISTLOCK.

(** The Redlock instance: its server list, which the provider overwrites
    before each operation, and the integer options of the constructor
    call ([driftFactor: 0.01] is not used by any code of the provider). *)
Record Redlock : Type := {
  servers : list Server;
  retryCount : Z;
  retryDelay : Z
}.

Record RedisDistlockLocker : Type := {
  redlock : Redlock;
  _locks : gmap string Lock
}.

(** [new RedisDistlockLocker(redisPool)] *)
Definition new_RedisDistlockLocker : RedisDistlockLocker :=
  {| redlock := {| servers := [EmptyObject]; retryCount := 3; retryDelay := 100 |};
     _locks := ∅ |}.

Definition resourceId (host : string) : string :=
  REDIS_DISTLOCK.PREFIX +:+ host.

(** ** Calls to the collaborators *)

(** Each call carries what the collaborator is given; the Redlock calls
    also carry the [servers] list the primitive finds on the shared
    Redlock instance when it is called.  A Redlock operation answers in
    Node style, with an error or with a lock. *)
Inductive Call : Type -> Type :=
| PoolAcquire (db : Z) : Call (Err + Client)
| PoolRelease (db : Z) (client : Client) : Call unit
| RedlockLock (srv : list Server) (resource : string) (ttl : Z) : Call (Err + Lock)
| LockExtend (srv : list Server) (lock : Lock) (ttl : Z) : Call (Err + Lock)
| RedlockUnlock (srv : list Server) (lock : Lock) : Call (option Err).

Inductive Prog (A : Type) : Type :=
| Ret (a : A)
| Do {X : Type} (c : Call X) (k : X -> Prog A).

Arguments Ret {A} a.
Arguments Do {A X} c k.

(** Methods run on [this]: state passing over [Prog]. *)
Definition M (A : Type) : Type :=
  RedisDistlockLocker -> Prog (A * RedisDistlockLocker).

Definition ret {A} (a : A) : M A := fun self => Ret (a, self).

Fixpoint prog_bind {A B} (p : Prog A) (f : A -> Prog B) : Prog B :=
  match p with
  | Ret a => f a
  | Do c k => Do c (fun x => prog_bind (k x) f)
  end.

Definition bind {A B} (m : M A) (f : A -> M B) : M B :=
  fun self => prog_bind (m self) (fun '(a, self') => f a self').

Notation "x <- m ;; k" := (bind m (fun x => k))
  (at level 100, m at next level, right associativity).
Notation "m ;;; k" := (bind m (fun _ => k))
  (at level 100, right associativity).

Definition call {X} (c : Call X) : M X :=
  fun self => Do c (fun x => Ret (x, self)).

(** A call on [self.redlock]: the primitive sees the current server list. *)
Definition redlock_call {X} (c : list Server -> Call X) : M X :=
  fun self => Do (c (servers (redlock self))) (fun x => Ret (x, self)).

Definition gets {A} (f : RedisDistlockLocker -> A) : M A :=
  fun self => Ret (f self, self).

Definition modify (f : RedisDistlockLocker -> RedisDistlockLocker) : M unit :=
  fun self => Ret (tt, f self).

(** [self.redlock.servers = srv] *)
Definition set_servers (srv : list Server) (self : RedisDistlockLocker)
  : RedisDistlockLocker :=
  {| redlock := {| servers := srv;
                   retryCount := retryCount (redlock self);
                   retryDelay := retryDelay (redlock self) |};
     _locks := _locks self |}.

(** ** The provider *)

(** [_locks] is a plain object; [lock] and [unlock] only use keys made by
    [resourceId], which start with [batch:locks:] and so are none of the
    names a plain object inherits.  For such keys the object is a map. *)
Definition _getLock (resource : string) (self : RedisDistlockLocker)
  : option Lock :=
  _locks self !! resource.

Definition _setLock (resource : string) (lock : Lock)
  (self : RedisDistlockLocker) : RedisDistlockLocker :=
  {| redlock := redlock self;
     _locks := <[resource := lock]> (_locks self) |}.

Definition _tryExtend (lock : Lock) (ttl : Z) : M (Err + Lock) :=
  r <- call (PoolAcquire REDIS_DISTLOCK.DB) ;;
  match r with
  | inl err => ret (inl err)
  | inr client =>
      modify (set_servers [Connection client]) ;;;
      r' <- redlock_call (fun srv => LockExtend srv lock ttl) ;;
      call (PoolRelease REDIS_DISTLOCK.DB client) ;;;
      ret r'
  end.

Definition _tryAcquire (resource : string) (ttl : Z) : M (Err + Lock) :=
  r <- call (PoolAcquire REDIS_DISTLOCK.DB) ;;
  match r with
  | inl err => ret (inl err)
  | inr client =>
      modify (set_servers [Connection client]) ;;;
      r' <- redlock_call (fun srv => RedlockLock srv resource ttl) ;;
      call (PoolRelease REDIS_DISTLOCK.DB client) ;;;
      ret r'
  end.

(** The local function [acquireCallback] of [lock]. *)
Definition acquireCallback (resource : string) (r : Err + Lock)
  : M (Err + Lock) :=
  match r with
  | inl err => ret (inl err)
  | inr _lock =>
      modify (_setLock resource _lock) ;;;
      ret (inr _lock)
  end.

(** [lock(host, ttl, callback)]: [inl err] is [callback(err)], [inr l] is
    [callback(null, l)]. *)
Definition lock (host : string) (ttl : Z) : M (Err + Lock) :=
  let resource := resourceId host in
  held <- gets (_getLock resource) ;;
  match held with
  | Some l =>
      r <- _tryExtend l ttl ;;
      match r with
      | inl err =>
          r' <- _tryAcquire resource ttl ;;
          acquireCallback resource r'
      | inr _lock => ret (inr _lock)
      end
  | None =>
      r' <- _tryAcquire resource ttl ;;
      acquireCallback resource r'
  end.

(** [unlock(host, callback)]: [Some e] is [callback(e)], where [e] is an
    error or nothing; [None] is the path on which the callback is not
    called. *)
Definition unlock (host : string) : M (option (option Err)) :=
  held <- gets (_getLock (resourceId host)) ;;
  match held with
  | Some l =>
      r <- call (PoolAcquire REDIS_DISTLOCK.DB) ;;
      match r with
      | inl err => ret (Some (Some err))
      | inr client =>
          modify (set_servers [Connection client]) ;;;
          e <- redlock_call (fun srv => RedlockUnlock srv l) ;;
          call (PoolRelease REDIS_DISTLOCK.DB client) ;;;
          ret (Some e)
      end
  | None => ret None
  end.

(** ** Running a method against an environment *)

Record Env : Type := {
  World : Type;
  answer : forall X, Call X -> World -> X * World
}.

(** What an observer of the collaborators sees: a call and its answer. *)
Inductive Obs : Type :=
| Acquired (db : Z) (r : Err + Client)
| Released (db : Z) (client : Client)
| Locked (srv : list Server) (resource : string) (ttl : Z) (r : Err + Lock)
| Extended (srv : list Server) (lock : Lock) (ttl : Z) (r : Err + Lock)
| Unlocked (srv : list Server) (lock : Lock) (r : option Err).

Definition observe {X} (c : Call X) : X -> Obs :=
  match c in Call X return X -> Obs with
  | PoolAcquire db => fun r => Acquired db r
  | PoolRelease db client => fun _ => Released db client
  | RedlockLock srv resource ttl => fun r => Locked srv resource ttl r
  | LockExtend srv l ttl => fun r => Extended srv l ttl r
  | RedlockUnlock srv l => fun r => Unlocked srv l r
  end.

Fixpoint run {A} (env : Env) (p : Prog A) (w : World env)
  : list Obs * A * World env :=
  match p with
  | Ret a => ([], a, w)
  | Do c k =>
      let (x, w1) := answer env _ c w in
      let '(tr, a, w2) := run env (k x) w1 in
      (observe c x :: tr, a, w2)
  end.

(** The three parts of an outcome of a method: what the collaborators
    saw, what the callback received, and the provider afterwards. *)
Definition trace {A W} (o : list Obs * (A * RedisDistlockLocker) * W)
  : list Obs := o.1.1.
Definition result {A W} (o : list Obs * (A * RedisDistlockLocker) * W)
  : A := o.1.2.1.
Definition after {A W} (o : list Obs * (A * RedisDistlockLocker) * W)
  : RedisDistlockLocker := o.1.2.2.
Definition world_after {A W} (o : list Obs * (A * RedisDistlockLocker) * W)
  : W := o.2.

(** ** A scripted environment, for running the provider on examples *)

(** Modelled from the spec: the Lease record of the data model (resource,
    value, expiresAt).  The Lock objects are made by the Redlock library,
    which is not part of the sources; the provider holds references only. *)
Module Lease.
Record t : Type := {
  resource : string;
  value : string;
  expiresAt : Z
}.
End Lease.

(** The world of the scripted environment: a clock, the contents of the
    Lock objects, and the answers the pool and the primitive will give,
    in order.  A successful lock or extend names the Lock object it hands
    back and what that object then holds, so an answer can refresh an
    object in place or hand back a new one. *)
Record Script : Type := {
  now : Z;
  heap : gmap Lock Lease.t;
  pool_script : list (Err + Client);
  store_script : list (Err + Lock * Lease.t);
  release_script : list (option Err)
}.

Definition pool_step (w : Script) : (Err + Client) * Script :=
  match pool_script w with
  | r :: rest =>
      (r, {| now := now w; heap := heap w; pool_script := rest;
             store_script := store_script w;
             release_script := release_script w |})
  | [] => (inl "no connection available", w)
  end.

Definition store_step (w : Script) : (Err + Lock) * Script :=
  match store_script w with
  | inl err :: rest =>
      (inl err, {| now := now w; heap := heap w; pool_script := pool_script w;
                   store_script := rest;
                   release_script := release_script w |})
  | inr (l, lease) :: rest =>
      (inr l, {| now := now w; heap := <[l := lease]> (heap w);
                 pool_script := pool_script w;
                 store_script := rest;
                 release_script := release_script w |})
  | [] => (inl "LockError", w)
  end.

Definition release_step (w : Script) : option Err * Script :=
  match release_script w with
  | r :: rest =>
      (r, {| now := now w; heap := heap w; pool_script := pool_script w;
             store_script := store_script w;
             release_script := rest |})
  | [] => (None, w)
  end.

Definition scripted_answer (X : Type) (c : Call X) (w : Script) : X * Script :=
  match c in Call X return X * Script with
  | PoolAcquire _ => pool_step w
  | PoolRelease _ _ => (tt, w)
  | RedlockLock _ _ _ => store_step w
  | LockExtend _ _ _ => store_step w
  | RedlockUnlock _ _ => release_step w
  end.

Definition scripted : Env :=
  {| World := Script; answer := scripted_answer |}.

(** A lease is expired in a world when its expiry time has passed. *)
Definition expired (w : Script) (l : Lock) : bool :=
  match heap w !! l with
  | Some lease => (Lease.expiresAt lease <=? now w)%Z
  | None => false
  end.

(** ** Properties of traces *)

(** Pool discipline: scanning a trace with the connections currently
    held, every release gives back a held connection and removes it. *)
Fixpoint take_out (c : Z * Client) (held : list (Z * Client))
  : option (list (Z * Client)) :=
  match held with
  | [] => None
  | h :: rest =>
      if decide (h = c) then Some rest
      else match take_out c rest with
           | Some rest' => Some (h :: rest')
           | None => None
           end
  end.

Fixpoint holding (held : list (Z * Client)) (tr : list Obs)
  : option (list (Z * Client)) :=
  match tr with
  | [] => Some held
  | Acquired db (inr c) :: tr' => holding ((db, c) :: held) tr'
  | Released db c :: tr' =>
      match take_out (db, c) held with
      | Some held' => holding held' tr'
      | None => None
      end
  | _ :: tr' => holding held tr'
  end.

Definition is_acquire (o : Obs) : bool :=
  match o with Acquired _ (inr _) => true | _ => false end.

Definition is_release (o : Obs) : bool :=
  match o with Released _ _ => true | _ => false end.

Definition acquires (tr : list Obs) : nat := length (filter is_acquire tr).
Definition releases (tr : list Obs) : nat := length (filter is_release tr).

(** Every connection taken is given back exactly once by the end of the
    trace, that is before the callback runs. *)
Definition pool_discipline (tr : list Obs) : Prop :=
  holding [] tr = Some [] /\ acquires tr = releases tr.

(** The server list a store operation ran over. *)
Definition op_servers (o : Obs) : option (list Server) :=
  match o with
  | Locked srv _ _ _ => Some srv
  | Extended srv _ _ _ => Some srv
  | Unlocked srv _ _ => Some srv
  | _ => None
  end.

(** Scanning a trace with the connection taken last and not yet given
    back: every store operation runs over exactly that connection. *)
Fixpoint over_own_connection (cur : option Client) (tr : list Obs) : bool :=
  match tr with
  | [] => true
  | Acquired _ (inr c) :: tr' => over_own_connection (Some c) tr'
  | Acquired _ (inl _) :: tr' => over_own_connection None tr'
  | Released _ _ :: tr' => over_own_connection None tr'
  | o :: tr' =>
      match cur, op_servers o with
      | Some c, Some srv =>
          bool_decide (srv = [Connection c]) && over_own_connection cur tr'
      | _, _ => false
      end
  end.

(** Modelled from the spec: the majority threshold of the quorum
    primitive over N store nodes, floor(N/2) + 1.  The primitive itself is
    the Redlock library, which is not part of the sources. *)
Definition majority (n : nat) : nat := (n / 2 + 1)%nat.

Definition single_node (o : Obs) : bool :=
  match op_servers o with
  | Some srv => bool_decide (length srv = 1%nat /\ majority (length srv) = 1%nat)
  | None => true
  end.

(** What the first events of a [lock] trace say about the extend attempt
    on a held lease: the pool refused a connection, or the primitive
    answered the extend. *)
Definition extend_result (tr : list Obs) : option (Err + Lock) :=
  match tr with
  | Acquired _ (inl e) :: _ => Some (inl e)
  | Acquired _ (inr _) :: Extended _ _ _ r :: _ => Some r
  | _ => None
  end.

(** The extend attempt failed: there was no lease to extend, or the
    attempt on the held lease ended in an error. *)
Definition extend_failed (held : option Lock) (tr : list Obs) : bool :=
  match held with
  | None => true
  | Some _ =>
      match extend_result tr with
      | Some (inl _) => true
      | _ => false
      end
  end.

(** What the last events of a [lock] trace say about the acquire attempt:
    the pool refused a connection, or the primitive answered the lock. *)
Definition acquire_result (tr : list Obs) : option (Err + Lock) :=
  match reverse tr with
  | Acquired _ (inl e) :: _ => Some (inl e)
  | Released _ _ :: Locked _ _ _ r :: _ => Some r
  | _ => None
  end.

(** One attempt of a store operation [op] through the pool: either the
    pool gives no connection and the error goes to the callback, or the
    operation runs over the connection, which is then given back. *)
Inductive attempt (op : list Server -> Err + Lock -> Obs)
  (self : RedisDistlockLocker)
  : list Obs -> Err + Lock -> RedisDistlockLocker -> Prop :=
| attempt_refused e :
    attempt op self [Acquired REDIS_DISTLOCK.DB (inl e)] (inl e) self
| attempt_made c r :
    attempt op self
      [Acquired REDIS_DISTLOCK.DB (inr c); op [Connection c] r;
       Released REDIS_DISTLOCK.DB c]
      r (set_servers [Connection c] self).

(** The provider after [acquireCallback] has seen the answer [r]. *)
Definition stored (resource : string) (r : Err + Lock)
  (self : RedisDistlockLocker) : RedisDistlockLocker :=
  match r with
  | inl _ => self
  | inr l => _setLock resource l self
  end.

(** The three ways through [lock]. *)
Inductive lock_path (self : RedisDistlockLocker) (host : string) (ttl : Z)
  : list Obs -> Err + Lock -> RedisDistlockLocker -> Prop :=
| path_extended l tr l' s1 :
    _getLock (resourceId host) self = Some l ->
    attempt (fun srv r => Extended srv l ttl r) self tr (inr l') s1 ->
    lock_path self host ttl tr (inr l') s1
| path_fallback l tr1 e s1 tr2 r s2 :
    _getLock (resourceId host) self = Some l ->
    attempt (fun srv r => Extended srv l ttl r) self tr1 (inl e) s1 ->
    attempt (fun srv r => Locked srv (resourceId host) ttl r) s1 tr2 r s2 ->
    lock_path self host ttl (tr1 ++ tr2) r (stored (resourceId host) r s2)
| path_fresh tr r s1 :
    _getLock (resourceId host) self = None ->
    attempt (fun srv r => Locked srv (resourceId host) ttl r) self tr r s1 ->
    lock_path self host ttl tr r (stored (resourceId host) r s1).

(** The ways through [unlock] when a lease is held. *)
Inductive release_path (l : Lock) (self : RedisDistlockLocker)
  : list Obs -> option (option Err) -> RedisDistlockLocker -> Prop :=
| release_refused e :
    release_path l self [Acquired REDIS_DISTLOCK.DB (inl e)]
      (Some (Some e)) self
| release_made c r :
    release_path l self
      [Acquired REDIS_DISTLOCK.DB (inr c); Unlocked [Connection c] l r;
       Released REDIS_DISTLOCK.DB c]
      (Some r) (set_servers [Connection c] self).

(** The extend attempt [lock] starts on a held lease [l]: it asks the
    pool for a connection and, given one, calls extend on [l] over it. *)
Definition extend_attempted (l : Lock) (ttl : Z) (tr : list Obs) : Prop :=
  (exists e rest, tr = Acquired REDIS_DISTLOCK.DB (inl e) :: rest) \/
  (exists c r rest,
      tr = Acquired REDIS_DISTLOCK.DB (inr c)
           :: Extended [Connection c] l ttl r
           :: Released REDIS_DISTLOCK.DB c :: rest).

(** What an acquire attempt on [resource] shows and leaves: the trace of
    the attempt, what the callback of [lock] receives, and the lease
    table afterwards, starting from [table]. *)
Inductive acquire_outcome (resource : string) (ttl : Z)
  (table : gmap string Lock)
  : list Obs -> Err + Lock -> gmap string Lock -> Prop :=
| acquire_no_connection e :
    acquire_outcome resource ttl table
      [Acquired REDIS_DISTLOCK.DB (inl e)] (inl e) table
| acquire_refused c e :
    acquire_outcome resource ttl table
      [Acquired REDIS_DISTLOCK.DB (inr c);
       Locked [Connection c] resource ttl (inl e);
       Released REDIS_DISTLOCK.DB c]
      (inl e) table
| acquire_granted c l :
    acquire_outcome resource ttl table
      [Acquired REDIS_DISTLOCK.DB (inr c);
       Locked [Connection c] resource ttl (inr l);
       Released REDIS_DISTLOCK.DB c]
      (inr l) (<[resource := l]> table).

(** What a release attempt on the lease [l] shows and hands to the
    callback of [unlock]. *)
Definition release_attempted (l : Lock) (tr : list Obs)
  (res : option (option Err)) : Prop :=
  (exists e, tr = [Acquired REDIS_DISTLOCK.DB (inl e)] /\ res = Some (Some e)) \/
  (exists c r,
      tr = [Acquired REDIS_DISTLOCK.DB (inr c); Unlocked [Connection c] l r;
            Released REDIS_DISTLOCK.DB c] /\
      res = Some r).

(** ** Example inputs *)

Definition hostA : string := "hostA".

Definition lease_v1 (expiry : Z) : Lease.t :=
  {| Lease.resource := resourceId hostA; Lease.value := "v1";
     Lease.expiresAt := expiry |}.

Definition lease_v2 (expiry : Z) : Lease.t :=
  {| Lease.resource := resourceId hostA; Lease.value := "v2";
     Lease.expiresAt := expiry |}.

(** A provider that holds Lock object 1 for [hostA]. *)
Definition holding_hostA : RedisDistlockLocker :=
  _setLock (resourceId hostA) 1%nat new_RedisDistlockLocker.

(** At time 100 object 1 is live until 500; the pool has connections 7
    and 8 to give. *)
Definition world (stores : list (Err + Lock * Lease.t))
  (releases : list (option Err)) : Script :=
  {| now := 100;
     heap := {[ 1%nat := lease_v1 500 ]};
     pool_script := [inr 7%nat; inr 8%nat];
     store_script := stores;
     release_script := releases |}.

(** Extend succeeds and hands back object 1, refreshed in place. *)
Definition w_extend_in_place : Script :=
  world [inr (1%nat, lease_v1 1100)] [].

(** Extend fails, then the acquire fails too. *)
Definition w_both_fail : Script :=
  world [inl "extend: quorum not reached"; inl "lock: quorum not reached"] [].

(** Extend fails, then the acquire succeeds with a new lease. *)
Definition w_reacquire : Script :=
  world [inl "extend: quorum not reached"; inr (2%nat, lease_v2 1100)] [].

(** Every release reports an error. *)
Definition w_release_error : Script :=
  world [] [Some "release failed"; Some "release failed again"].

(** At time 100 object 1 expired at 50; the primitive refuses to extend
    it and grants a new lease. *)
Definition w_expired : Script :=
  {| now := 100;
     heap := {[ 1%nat := lease_v1 50 ]};
     pool_script := [inr 7%nat; inr 8%nat];
     store_script := [inl "lock has already expired"; inr (2%nat, lease_v2 1100)];
     release_script := [None] |}.

(** Nothing is held yet at time 100; the primitive grants Lock object 1
    and then extends it in place; a release succeeds. *)
Definition w_fresh : Script :=
  {| now := 100;
     heap := ∅;
     pool_script := [inr 7%nat; inr 8%nat; inr 9%nat];
     store_script := [inr (1%nat, lease_v1 1100); inr (1%nat, lease_v1 2100)];
     release_script := [None] |}.

(** ** The extend of the primitive *)

(** Modelled from the spec: what a successful extend of the quorum
    primitive hands back.  The primitive is the Redlock library, which is
    not part of the sources; by the lifecycle of the spec a lease is
    refreshed in place by a successful extend (new expiresAt, same
    value), so the Lock object the callback receives is the object the
    extend was called on. *)
Definition extends_in_place (env : Env) : Prop :=
  forall srv l ttl w l',
    (answer env _ (LockExtend srv l ttl) w).1 = inr l' -> l' = l.

(** The scripted environment with such an extend: a successful answer
    to an extend on [l] refreshes the contents of [l] and hands [l]
    back, whichever object the script names. *)
Definition extend_step (l : Lock) (w : Script) : (Err + Lock) * Script :=
  match store_script w with
  | inl err :: rest =>
      (inl err, {| now := now w; heap := heap w; pool_script := pool_script w;
                   store_script := rest;
                   release_script := release_script w |})
  | inr (_, lease) :: rest =>
      (inr l, {| now := now w; heap := <[l := lease]> (heap w);
                 pool_script := pool_script w;
                 store_script := rest;
                 release_script := release_script w |})
  | [] => (inl "LockError", w)
  end.

Definition scripted_in_place_answer (X : Type) (c : Call X) (w : Script)
  : X * Script :=
  match c in Call X return X * Script with
  | PoolAcquire _ => pool_step w
  | PoolRelease _ _ => (tt, w)
  | RedlockLock _ _ _ => store_step w
  | LockExtend _ l _ => extend_step l w
  | RedlockUnlock _ _ => release_step w
  end.

Definition scripted_in_place : Env :=
  {| World := Script; answer := scripted_in_place_answer |}.

(** The failed extend attempt that precedes the acquire of [lock]:
    nothing when no lease is held; on a held lease, the refusal of the
    pool or an extend that the primitive answered with an error, over
    the connection taken and given back. *)
Inductive failed_extend (ttl : Z) : option Lock -> list Obs -> Prop :=
| nothing_to_extend : failed_extend ttl None []
| extend_without_connection l e :
    failed_extend ttl (Some l) [Acquired REDIS_DISTLOCK.DB (inl e)]
| extend_refused l c e :
    failed_extend ttl (Some l)
      [Acquired REDIS_DISTLOCK.DB (inr c);
       Extended [Connection c] l ttl (inl e);
       Released REDIS_DISTLOCK.DB c].

(** Two worlds of the scripted environment with the same answers to
    come: they differ at most in the clock and in what the Lock objects
    hold. *)
Definition same_scripts (w w' : Script) : Prop :=
  pool_script w = pool_script w' /\
  store_script w = store_script w' /\
  release_script w = release_script w'.

(** ** Sequences of requests *)

(** A request of a caller of the provider. *)
Inductive Request : Type :=
| LockRequest (host : string) (ttl : Z)
| UnlockRequest (host : string).

Definition request_host (q : Request) : string :=
  match q with
  | LockRequest host _ => host
  | UnlockRequest host => host
  end.

(** One request: what the collaborators see, and the provider and the
    world afterwards. *)
Definition request (env : Env) (q : Request) (self : RedisDistlockLocker)
  (w : World env) : list Obs * RedisDistlockLocker * World env :=
  match q with
  | LockRequest host ttl =>
      let o := run env (lock host ttl self) w in
      (trace o, after o, world_after o)
  | UnlockRequest host =>
      let o := run env (unlock host self) w in
      (trace o, after o, world_after o)
  end.

(** Requests served one after the other, each on the provider and the
    world the previous one left. *)
Fixpoint serve (env : Env) (qs : list Request) (self : RedisDistlockLocker)
  (w : World env) : list Obs * RedisDistlockLocker * World env :=
  match qs with
  | [] => ([], self, w)
  | q :: rest =>
      let '(tr1, s1, w1) := request env q self w in
      let '(tr2, s2, w2) := serve env rest s1 w1 in
      (tr1 ++ tr2, s2, w2)
  end.

(** The number of connections held after a trace, starting from [held],
    and the largest number held at any point of it. *)
Fixpoint held_after (held : nat) (tr : list Obs) : nat :=
  match tr with
  | [] => held
  | Acquired _ (inr _) :: tr' => held_after (S held) tr'
  | Released _ _ :: tr' => held_after (pred held) tr'
  | _ :: tr' => held_after held tr'
  end.

Fixpoint peak_held (held : nat) (tr : list Obs) : nat :=
  match tr with
  | [] => held
  | Acquired _ (inr _) :: tr' => Nat.max held (peak_held (S held) tr')
  | Released _ _ :: tr' => Nat.max held (peak_held (pred held) tr')
  | _ :: tr' => peak_held held tr'
  end.

(** How many calls of each kind a trace has. *)
Definition is_pool_request (o : Obs) : bool :=
  match o with Acquired _ _ => true | _ => false end.
Definition is_extend (o : Obs) : bool :=
  match o with Extended _ _ _ _ => true | _ => false end.
Definition is_lock (o : Obs) : bool :=
  match o with Locked _ _ _ _ => true | _ => false end.
Definition is_unlock (o : Obs) : bool :=
  match o with Unlocked _ _ _ => true | _ => false end.

Definition count (f : Obs -> bool) (tr : list Obs) : nat :=
  length (filter f tr).

(** An event of [lock(host, ttl)] or [unlock(host)] is addressed as the
    caller asked: pool traffic on database 5, a lock call on the key's
    resource with the caller's ttl, an extend or an unlock on the lease
    [held] in the table, the extend with the caller's ttl. *)
Definition addressed (host : string) (ttl : Z) (held : option Lock)
  (o : Obs) : bool :=
  match o with
  | Acquired db _ => bool_decide (db = 5)
  | Released db _ => bool_decide (db = 5)
  | Locked _ resource t _ =>
      bool_decide (resource = "batch:locks:" +:+ host) && bool_decide (t = ttl)
  | Extended _ l t _ => bool_decide (held = Some l) && bool_decide (t = ttl)
  | Unlocked _ l _ => bool_decide (held = Some l)
  end.

(** The connection a trace took last from the pool. *)
Fixpoint last_connection (tr : list Obs) : option Client :=
  match tr with
  | [] => None
  | Acquired _ (inr c) :: tr' =>
      match last_connection tr' with
      | Some c' => Some c'
      | None => Some c
      end
  | _ :: tr' => last_connection tr'
  end.

(** What a request leaves on the shared Redlock instance. *)
Definition servers_left (self : RedisDistlockLocker) (tr : list Obs)
  : list Server :=
  match last_connection tr with
  | Some c => [Connection c]
  | None => servers (redlock self)
  end.

(** * String operations of JavaScript used by the sources

    Strings are sequences of bytes; the separators used are single
    ASCII characters, which are one byte in every encoding concerned. *)

Module JS.

(** [a.join(sep)] *)
Fixpoint join (sep : string) (a : list string) : string :=
  match a with
  | [] => ""
  | [x] => x
  | x :: rest => x +:+ sep +:+ join sep rest
  end.

(** [s.split(sep)] for a separator of one character: the pieces between
    the separators, a single empty piece for the empty string. *)
Fixpoint split (sep : ascii) (s : string) : list string :=
  match s with
  | EmptyString => [""]
  | String c rest =>
      if Ascii.eqb c sep then "" :: split sep rest
      else match split sep rest with
           | piece :: pieces => String c piece :: pieces
           | [] => [String c ""]
           end
  end.

(** The character [c] occurs in [s]. *)
Fixpoint occurs (c : ascii) (s : string) : bool :=
  match s with
  | EmptyString => false
  | String c' rest => Ascii.eqb c' c || occurs c rest
  end.

(** How often the character [c] occurs in [s]. *)
Fixpoint count (c : ascii) (s : string) : nat :=
  match s with
  | EmptyString => 0%nat
  | String c' rest => ((if Ascii.eqb c' c then 1 else 0) + count c rest)%nat
  end.

(** The integers that are numbers of JavaScript without rounding; they
    print in decimal, with all their digits. *)
Definition safe_integer (n : Z) : Prop := - 2 ^ 53 < n < 2 ^ 53.

End JS.

(** * The SVG output format

    [SvgFormat] of [app/models/formats/svg.js]: [handleQueryRow] sorts
    the rows of the query into three buffers of SVG elements and takes
    the bounding box from the first row with a geometry;
    [handleQueryEnd] writes the document to the sink.  The bounding box
    is made of floating-point numbers: the parsing of [BOX(x y,X Y)],
    the growing of the box and the printing of the [viewBox] attribute
    are parameters of the model. *)

Module SvgFormat.

(** A column value of a result row, as the database driver gives it:
    [null], a text, or a number that is an integer. *)
Inductive Value : Type :=
| VNull
| VText (s : string)
| VInt (n : Z).

(** A result row: the own properties of a plain object.  [row !! c = None]
    is a row with no column [c]; [row[c]] is then read as [undefined],
    which is so for the names a plain object does not inherit, such as
    [the_geom], the one name the query controller passes, and the names
    made from it. *)
Abbreviation Row := (gmap string Value).

(** The double quote and the line feed. *)
Definition dq : string := String "034"%char "".
Definition nl : string := String "010"%char "".

Definition radius : Z := 5.
Definition stroke_width : Z := 1.
Definition stroke_color : string := "black".
(** [0.5], as JavaScript prints it. *)
Definition fill_opacity : string := "0.5".
Definition fill_color : string := "none".

(** [!v] *)
Definition falsy (v : option Value) : bool :=
  match v with
  | None => true
  | Some VNull => true
  | Some (VText s) => bool_decide (s = "")
  | Some (VInt n) => bool_decide (n = 0)
  end.

(** [v == 'd'] for a decimal digit [d]: a text is compared as a string,
    a number with the number the string denotes; [null] and [undefined]
    are equal to no string. *)
Definition loose_eq_digit (v : option Value) (d : Z) : bool :=
  match v with
  | Some (VText s) => bool_decide (s = pretty d)
  | Some (VInt n) => bool_decide (n = d)
  | _ => false
  end.

(** ['...' + v] for a text or an integer that prints in decimal. *)
Definition to_text (v : Value) : string :=
  match v with
  | VNull => "null"
  | VText s => s
  | VInt n => pretty n
  end.

(** The values [to_text] prints as JavaScript does. *)
Definition printable (v : option Value) : bool :=
  match v with
  | Some (VInt n) => bool_decide (JS.safe_integer n)
  | _ => true
  end.

Abbreviation join := JS.join.

(** The options the formatter reads: the name of the geometry column
    and whether [beforeSink] and [profiler] are given. *)
Record Opts : Type := {
  gn : string;
  beforeSink : bool;
  profiler : bool
}.

Section WithBox.

Context {Box : Type}.

(** The match of the extent text against the pattern for
    [BOX(xmin ymin,xmax ymax)] followed by [parseFloat] of the four
    groups; [None] when the text does not match. *)
Context (parse_box : string -> option Box).

(** The box expanded by [radius + stroke_width] on each side, with its
    width and height, and the [viewBox="..." ] attribute printed from
    the expanded box. *)
Context (grow : Box -> Box) (view_box : Box -> string).

Record t : Type := {
  totalRows : Z;
  bbox : option Box;
  polys : list string;
  lines : list string;
  points : list string;
  error : option string
}.

(** [new SvgFormat()] *)
Definition new : t :=
  {| totalRows := 0; bbox := None; polys := []; lines := []; points := [];
     error := None |}.

Definition circle (g : Value) : string :=
  "<circle r=" +:+ dq +:+ pretty radius +:+ dq +:+ " " +:+ to_text g +:+ " />".

Definition line_path (g : Value) : string :=
  "<path "
  +:+ (if bool_decide (fill_color <> "none")
       then "fill=" +:+ dq +:+ "none" +:+ dq +:+ " " else "")
  +:+ "d=" +:+ dq +:+ to_text g +:+ dq +:+ " />".

Definition poly_path (g : Value) : string :=
  "<path d=" +:+ dq +:+ to_text g +:+ dq +:+ " />".

(** The element pushed for the geometry [g] of dimension [gdims]. *)
Definition push_shape (g : Value) (gdims : option Value) (st : t) : t :=
  if loose_eq_digit gdims 0 then
    {| totalRows := totalRows st; bbox := bbox st; polys := polys st;
       lines := lines st; points := points st ++ [circle g];
       error := error st |}
  else if loose_eq_digit gdims 1 then
    {| totalRows := totalRows st; bbox := bbox st; polys := polys st;
       lines := lines st ++ [line_path g]; points := points st;
       error := error st |}
  else if loose_eq_digit gdims 2 then
    {| totalRows := totalRows st; bbox := bbox st;
       polys := polys st ++ [poly_path g];
       lines := lines st; points := points st; error := error st |}
  else st.

(** A row as the driver builds it, by assigning its columns to a plain
    object: no assignment gives the object an own property [__proto__]. *)
Definition plain (row : Row) : Prop := row !! "__proto__" = None.

(** The message of the error for a row without the geometry column. *)
Definition missing_column (opts : Opts) : string :=
  "column " +:+ dq +:+ gn opts +:+ dq +:+ " does not exist".

(** [handleQueryRow(row)]: the formatter afterwards, and [true] when the
    call ended by throwing a [TypeError]: the row has a column named
    [hasOwnProperty], so that [row.hasOwnProperty] is not a function, or
    the extent column is not a text, or does not read as a box.  What
    was assigned before the throw stays assigned. *)
Definition handleQueryRow (opts : Opts) (row : Row) (st : t) : t * bool :=
  let counted :=
    {| totalRows := totalRows st + 1; bbox := bbox st; polys := polys st;
       lines := lines st; points := points st; error := error st |} in
  match row !! "hasOwnProperty" with
  | Some _ => (counted, true)
  | None =>
      let st1 :=
        {| totalRows := totalRows st + 1; bbox := bbox st; polys := polys st;
           lines := lines st; points := points st;
           error := match row !! gn opts with
                    | Some _ => error st
                    | None => Some (missing_column opts)
                    end |} in
      match row !! gn opts with
      | Some g =>
          if falsy (Some g) then (st1, false)
          else
            let st2 := push_shape g (row !! (gn opts +:+ "_dimension")) st1 in
            match bbox st2 with
            | Some _ => (st2, false)
            | None =>
                match row !! (gn opts +:+ "_box") with
                | Some (VText b) =>
                    match parse_box b with
                    | Some box =>
                        ({| totalRows := totalRows st2; bbox := Some box;
                            polys := polys st2; lines := lines st2;
                            points := points st2; error := error st2 |},
                         false)
                    | None => (st2, true)
                    end
                | _ => (st2, true)
                end
            end
      | None => (st1, false)
      end
  end.

(** What [handleQueryEnd] does to its collaborators, in order. *)
Inductive Event : Type :=
| CallbackError (message : string)
| BeforeSink
| ProfilerDone (label : string)
| SinkWrite (chunk : string)
| SinkEnd
| Callback.

Definition rootTag (b : option Box) : string :=
  "<svg "
  +:+ match b with Some box => view_box box | None => "" end
  +:+ "style=" +:+ dq +:+ "fill-opacity:" +:+ fill_opacity
  +:+ "; stroke:" +:+ stroke_color
  +:+ "; stroke-width:" +:+ pretty stroke_width
  +:+ "; fill:" +:+ fill_color
  +:+ dq +:+ " "
  +:+ "xmlns=" +:+ dq +:+ "http://www.w3.org/2000/svg" +:+ dq
  +:+ " version=" +:+ dq +:+ "1.1" +:+ dq +:+ ">".

Definition header (b : option Box) : list string :=
  [ "<?xml version=" +:+ dq +:+ "1.0" +:+ dq +:+ " standalone=" +:+ dq
    +:+ "no" +:+ dq +:+ "?>";
    "<!DOCTYPE svg PUBLIC " +:+ dq +:+ "-//W3C//DTD SVG 1.1//EN" +:+ dq
    +:+ " " +:+ dq +:+ "http://www.w3.org/Graphics/SVG/1.1/DTD/svg11.dtd"
    +:+ dq +:+ ">";
    rootTag b ].

(** [handleQueryEnd()] *)
Definition handleQueryEnd (opts : Opts) (st : t) : list Event * t :=
  match error st with
  | Some e => ([CallbackError e], st)
  | None =>
      let grown := grow <$> bbox st in
      ((if beforeSink opts then [BeforeSink] else [])
       ++ (if profiler opts then [ProfilerDone "gotRows"] else [])
       ++ [SinkWrite (join nl (header grown));
           SinkWrite (join nl (points st));
           SinkWrite (join nl (lines st));
           SinkWrite (join nl (polys st));
           SinkWrite "</svg>";
           SinkEnd;
           Callback],
       {| totalRows := totalRows st; bbox := grown; polys := [];
          lines := []; points := []; error := None |})
  end.

(** The chunks a list of events writes to the sink. *)
Definition written (evs : list Event) : list string :=
  omap (fun e => match e with SinkWrite c => Some c | _ => None end) evs.

(** The formatter after [handleQueryRow] has returned on each row in
    turn; [None] when one of the calls threw (what becomes of the
    formatter then is up to its caller, which is not in the sources). *)
Fixpoint handleRows (opts : Opts) (rows : list Row) (st : t) : option t :=
  match rows with
  | [] => Some st
  | row :: rest =>
      let r := handleQueryRow opts row st in
      if r.2 then None else handleRows opts rest r.1
  end.

(** The geometry of a row when the row gives an element of dimension
    [d]: the row has no column [hasOwnProperty], the geometry is there
    and not empty, and the dimension column is the first of 0, 1, 2 to
    compare equal, and is [d]. *)
Definition shape_of (opts : Opts) (d : Z) (row : Row) : option Value :=
  match row !! "hasOwnProperty", row !! gn opts with
  | None, Some g =>
      let gdims := row !! (gn opts +:+ "_dimension") in
      if falsy (Some g) then None
      else if loose_eq_digit gdims 0 then (if bool_decide (d = 0) then Some g else None)
      else if loose_eq_digit gdims 1 then (if bool_decide (d = 1) then Some g else None)
      else if loose_eq_digit gdims 2 then (if bool_decide (d = 2) then Some g else None)
      else None
  | _, _ => None
  end.


End WithBox.

End SvgFormat.

(** * Parts of the query controller

    From [QueryController.prototype.handleQuery]: the fields to skip as
    read from the request, and the [Cache-Control] header that
    [setHeaders] gives the response. *)

Module QueryController.

Definition ONE_YEAR_IN_SECONDS : Z := 31536000.
Definition FIVE_MINUTES_IN_SECONDS : Z := 60 * 5.

(** [cacheControl]: the defaults [ttl: ONE_YEAR_IN_SECONDS] and
    [fallbackTtl: FIVE_MINUTES_IN_SECONDS] overridden by the keys of
    [global.settings.cache]. *)
Record CacheControl : Type := {
  ttl : Z;
  fallbackTtl : Z
}.

(** A request parameter as the query string or the form body gives it:
    absent, a string, or an array of strings when it is repeated. *)
Inductive Param : Type :=
| PUndefined
| PString (s : string)
| PArray (a : list string).

(** [skipfields] after the block that accepts a comma-separated string
    or an array of comma-separated strings. *)
Definition skipfields (requestedSkipfields : Param) : list string :=
  match requestedSkipfields with
  | PUndefined => []
  | PString EmptyString => []
  | PString s => JS.split "," s
  | PArray a => fold_left (fun acc ele => acc ++ JS.split "," ele) a []
  end.

(** A table a query touches: [updated_at], [None] when it is [null]. *)
Record Table : Type := {
  table_name : string;
  updated_at : option Z
}.

(** The value of the [Cache-Control] header, from [req.query.cache_policy],
    the tables of [affectedTables] ([None] when the lookup gave nothing)
    and [queryMayWrite(sql)].  The lifetimes are printed in decimal, as
    JavaScript prints them when they are safe integers. *)
Definition cacheControlHeader (cc : CacheControl) (cachePolicy : option string)
  (affectedTables : option (list Table)) (mayWrite : bool) : string :=
  if bool_decide (cachePolicy = Some "persist") then
    "public,max-age=" +:+ pretty ONE_YEAR_IN_SECONDS
  else
    match affectedTables with
    | Some tables =>
        if forallb (fun table => bool_decide (updated_at table <> None)) tables
        then
          let maxAge := if mayWrite then 0 else ttl cc in
          "no-cache,max-age=" +:+ pretty maxAge +:+ ",must-revalidate,public"
        else
          let maxAge := fallbackTtl cc in
          "no-cache,max-age=" +:+ pretty maxAge +:+ ",must-revalidate,public"
    | None =>
        let maxAge := fallbackTtl cc in
        "no-cache,max-age=" +:+ pretty maxAge +:+ ",must-revalidate,public"
    end.

End QueryController.

(** * Resetting the pgbouncer connections

    [resetPgBouncerConnections] of the test support: the answers of the
    pgbouncer console to [PAUSE] and to [RESUME] are given, the second
    one being read only when [RESUME] is sent. *)

Module DbUtils.

Record DbConfig : Type := {
  db_user : string;
  db_host : string;
  db_port : Z;
  db_batch_port : Z
}.

Inductive Event : Type :=
| NewClient (database user host : string) (port : Z)
| ClientConnect
| ClientQuery (sql : string) (err : option Err)
| ClientEnd.

(** The events on the client, and the argument of the callback. *)
Definition resetPgBouncerConnections (dbConfig : DbConfig)
  (pause resume : option Err) : list Event * option Err :=
  if bool_decide (db_port dbConfig = db_batch_port dbConfig) then ([], None)
  else
    let opened :=
      [NewClient "pgbouncer" (db_user dbConfig) (db_host dbConfig)
         (db_port dbConfig);
       ClientConnect] in
    match pause with
    | Some err => (opened ++ [ClientQuery "PAUSE" (Some err)], Some err)
    | None =>
        (opened ++ [ClientQuery "PAUSE" None; ClientQuery "RESUME" resume;
                    ClientEnd],
         resume)
    end.

Definition is_resume (e : Event) : bool :=
  match e with
  | ClientQuery sql _ => bool_decide (sql = "RESUME")
  | _ => false
  end.

Definition is_end (e : Event) : bool :=
  match e with ClientEnd => true | _ => false end.

End DbUtils.

(** Example rows of an SVG query on the column [the_geom], with boxes
    kept as their text. *)
Definition svg_opts : SvgFormat.Opts :=
  {| SvgFormat.gn := "the_geom"; SvgFormat.beforeSink := false;
     SvgFormat.profiler := false |}.

Definition svg_row (g : SvgFormat.Value) (d : Z) : SvgFormat.Row :=
  {[ "the_geom" := g;
     "the_geom_dimension" := SvgFormat.VInt d;
     "the_geom_box" := SvgFormat.VText "BOX(0 0,10 10)" ]}.

Definition keep_text (b : string) : option string := Some b.

(** ** Running the helpers *)

(** Case analysis on the answers of the environment along a run. *)
Ltac answers :=
  repeat match goal with
    | |- context [answer ?env ?X ?c ?w] =>
        let x := fresh "x" in
        let w' := fresh "w" in
        destruct (answer env X c w) as [x w']; try destruct x; simpl
    end.

Ltac solve_attempt :=
  match goal with
  | |- attempt ?op ?s _ ?r _ =>
      first [apply attempt_refused | apply (attempt_made op s _ r)]
  end.

Ltac unfold_monad :=
  unfold bind, call, redlock_call, gets, modify, ret; simpl.

Section Running.

Context (env : Env).

Lemma run_prog_bind {A B} (p : Prog A) (f : A -> Prog B) w :
  run env (prog_bind p f) w =
  let '(tr1, a, w1) := run env p w in
  let '(tr2, b, w2) := run env (f a) w1 in
  (tr1 ++ tr2, b, w2).
Proof.
  revert w. induction p as [a | X c k IH]; intros w; simpl.
  - destruct (run env (f a) w) as [[tr2 b] w2]. reflexivity.
  - destruct (answer env X c w) as [x w1]. rewrite IH.
    destruct (run env (k x) w1) as [[tr1 a] w2].
    destruct (run env (f a) w2) as [[tr2 b] w3]. reflexivity.
Qed.

(** Running [m >>= f] on [self]: the traces follow each other and [f]
    runs on the provider and the world [m] leaves. *)
Lemma run_bind {A B} (m : M A) (f : A -> M B) self w :
  let o1 := run env (m self) w in
  let o2 := run env (f (result o1) (after o1)) (world_after o1) in
  run env (bind m f self) w = (trace o1 ++ trace o2, o2.1.2, o2.2).
Proof.
  unfold bind, trace, result, after, world_after. rewrite run_prog_bind.
  destruct (run env (m self) w) as [[tr1 [a s1]] w1]. simpl.
  destruct (run env (f a s1) w1) as [[tr2 b] w2]. reflexivity.
Qed.

Lemma run_tryExtend w self l ttl :
  let o := run env (_tryExtend l ttl self) w in
  attempt (fun srv r => Extended srv l ttl r) self
    (trace o) (result o) (after o).
Proof.
  unfold _tryExtend, trace, result, after. unfold_monad.
  answers; solve_attempt.
Qed.

Lemma run_tryAcquire w self resource ttl :
  let o := run env (_tryAcquire resource ttl self) w in
  attempt (fun srv r => Locked srv resource ttl r) self
    (trace o) (result o) (after o).
Proof.
  unfold _tryAcquire, trace, result, after. unfold_monad.
  answers; solve_attempt.
Qed.

Lemma run_acquireCallback w self resource r :
  run env (acquireCallback resource r self) w = ([], (r, stored resource r self), w).
Proof. destruct r; reflexivity. Qed.

(** [lock] always returns, along one of its three paths. *)
Lemma lock_paths w self host ttl :
  let o := run env (lock host ttl self) w in
  lock_path self host ttl (trace o) (result o) (after o).
Proof.
  unfold lock. cbv zeta. rewrite run_bind. cbn [gets run result after world_after trace fst snd].
  destruct (_getLock (resourceId host) self) as [l|] eqn:Hheld.
  - rewrite run_bind. cbv zeta.
    pose proof (run_tryExtend w self l ttl) as Hext. cbv zeta in Hext.
    destruct (run env (_tryExtend l ttl self) w) as [[tr1 [r1 s1]] w1].
    unfold trace, result, after, world_after in *. simpl in *.
    destruct r1 as [e|l'].
    + rewrite run_bind. cbv zeta.
      pose proof (run_tryAcquire w1 s1 (resourceId host) ttl) as Hacq.
      cbv zeta in Hacq.
      destruct (run env (_tryAcquire (resourceId host) ttl s1) w1)
        as [[tr2 [r2 s2]] w2].
      unfold trace, result, after, world_after in *. simpl in *.
      rewrite run_acquireCallback. simpl. rewrite app_nil_r.
      eapply path_fallback; eauto.
    + simpl. rewrite app_nil_r. eapply path_extended; eauto.
  - rewrite run_bind. cbv zeta.
    pose proof (run_tryAcquire w self (resourceId host) ttl) as Hacq.
    cbv zeta in Hacq.
    destruct (run env (_tryAcquire (resourceId host) ttl self) w)
      as [[tr2 [r2 s2]] w2].
    unfold trace, result, after, world_after in *. simpl in *.
    rewrite run_acquireCallback. simpl. rewrite app_nil_r.
    eapply path_fresh; eauto.
Qed.

(** [unlock] on a held lease always calls back, along one of two paths. *)
Lemma unlock_paths w self host l :
  _getLock (resourceId host) self = Some l ->
  let o := run env (unlock host self) w in
  release_path l self (trace o) (result o) (after o).
Proof.
  intros Hheld. unfold unlock, trace, result, after. unfold_monad.
  rewrite Hheld. simpl.
  answers; first [apply release_refused | apply release_made].
Qed.

(** [unlock] without a lease does nothing at all. *)
Lemma unlock_nothing_held w self host :
  _getLock (resourceId host) self = None ->
  run env (unlock host self) w = ([], (None, self), w).
Proof.
  intros Hheld. unfold unlock. unfold_monad. rewrite Hheld. reflexivity.
Qed.

End Running.

(** ** The lease table and the traces along the paths *)

(** No store operation touches the lease table. *)
Lemma attempt_keeps_locks op self tr r s :
  attempt op self tr r s -> _locks s = _locks self.
Proof. intros H. destruct H; reflexivity. Qed.

Lemma release_path_keeps_locks l self tr r s :
  release_path l self tr r s -> _locks s = _locks self.
Proof. intros H. destruct H; reflexivity. Qed.

Lemma lock_starts_with_extend env w self host ttl l :
  _getLock (resourceId host) self = Some l ->
  extend_attempted l ttl (trace (run env (lock host ttl self) w)).
Proof.
  intros Hheld. pose proof (lock_paths env w self host ttl) as P.
  cbv zeta in P. destruct P as [l0 tr l' s1 H0 Ha | l0 tr1 e s1 tr2 r s2 H0 Ha Hb | tr r s1 H0 Ha];
    rewrite Hheld in H0; try discriminate; injection H0 as <-.
  - inversion Ha; subst. right. eauto.
  - inversion Ha; subst; [left | right]; simpl; eauto.
Qed.

Lemma attempt_acquire_outcome resource ttl s1 tr r s2 :
  attempt (fun srv r => Locked srv resource ttl r) s1 tr r s2 ->
  acquire_outcome resource ttl (_locks s1) tr r (_locks (stored resource r s2)).
Proof.
  intros Ha. inversion Ha; subst; simpl.
  - apply acquire_no_connection.
  - destruct r as [e|l]; simpl; [apply acquire_refused | apply acquire_granted].
Qed.

Lemma release_path_attempted l self tr res s :
  release_path l self tr res s -> release_attempted l tr res.
Proof. intros P. destruct P; [left | right]; eauto. Qed.

(** The pool events of one attempt are balanced, whatever was held. *)
Lemma take_out_head c held : take_out c (c :: held) = Some held.
Proof. simpl. rewrite decide_True by reflexivity. reflexivity. Qed.

Ltac invert_attempts :=
  repeat match goal with
    | H : attempt _ _ _ _ _ |- _ => inversion H; subst; clear H
    | H : release_path _ _ _ _ _ |- _ => inversion H; subst; clear H
    end.

Lemma lock_trace_discipline self host ttl tr r s :
  lock_path self host ttl tr r s -> pool_discipline tr.
Proof.
  intros P. destruct P; invert_attempts; unfold pool_discipline;
    cbn -[take_out]; rewrite ?take_out_head; cbn -[take_out];
    rewrite ?take_out_head; auto.
Qed.

Lemma unlock_trace_discipline l self tr r s :
  release_path l self tr r s -> pool_discipline tr.
Proof.
  intros P. destruct P; unfold pool_discipline;
    cbn -[take_out]; rewrite ?take_out_head; auto.
Qed.

Lemma lock_trace_single_node self host ttl tr r s :
  lock_path self host ttl tr r s ->
  over_own_connection None tr = true /\ forallb single_node tr = true.
Proof.
  intros P. destruct P; invert_attempts; cbn;
    rewrite ?bool_decide_eq_true_2 by reflexivity; auto.
Qed.

Lemma unlock_trace_single_node l self tr r s :
  release_path l self tr r s ->
  over_own_connection None tr = true /\ forallb single_node tr = true.
Proof.
  intros P. destruct P; cbn;
    rewrite ?bool_decide_eq_true_2 by reflexivity; auto.
Qed.

Lemma append_cancel_prefix (p a b : string) : p +:+ a = p +:+ b -> a = b.
Proof.
  induction p as [| ch p IH]; simpl; intros H; [exact H |].
  injection H as H. exact (IH H).
Qed.

(** Every event of a run is a call with the answer the environment gave
    to it in some world. *)
Lemma run_observed env A (p : Prog A) w o :
  In o (run env p w).1.1 ->
  exists X (c : Call X) w', o = observe c (answer env X c w').1.
Proof.
  revert w. induction p as [a | X c k IH]; intros w; simpl; [tauto |].
  destruct (answer env X c w) as [x w1] eqn:E.
  destruct (run env (k x) w1) as [[tr a] w2] eqn:Er. simpl.
  intros [<- | Hin].
  - exists X, c, w. rewrite E. reflexivity.
  - apply (IH x w1). rewrite Er. exact Hin.
Qed.

Lemma scripted_extends_in_place : extends_in_place scripted_in_place.
Proof.
  intros srv l ttl w l'. simpl. unfold extend_step.
  destruct (store_script w) as [| [e | [l0 lease]] rest]; simpl;
    congruence.
Qed.

(** The scripted environment answers from its scripts alone. *)
Lemma scripted_answer_same X (c : Call X) w w' :
  same_scripts w w' ->
  (scripted_answer X c w).1 = (scripted_answer X c w').1 /\
  same_scripts (scripted_answer X c w).2 (scripted_answer X c w').2.
Proof.
  intros (Hp & Hs & Hr). destruct w, w'. simpl in Hp, Hs, Hr. subst.
  destruct c; simpl;
    unfold pool_step, store_step, release_step, same_scripts; simpl;
    repeat case_match; simpl; auto.
Qed.

Lemma run_same_scripts A (p : Prog A) w w' :
  same_scripts w w' ->
  (run scripted p w).1 = (run scripted p w').1.
Proof.
  revert w w'. induction p as [a | X c k IH]; intros w w' Hsame;
    [reflexivity |].
  simpl. destruct (scripted_answer_same X c w w' Hsame) as [Hx Hw].
  destruct (scripted_answer X c w) as [x w1].
  destruct (scripted_answer X c w') as [x' w1']. simpl in Hx, Hw. subst x'.
  specialize (IH x w1 w1' Hw).
  destruct (run scripted (k x) w1) as [[tr a] w2].
  destruct (run scripted (k x) w1') as [[tr' a'] w2']. simpl in *.
  congruence.
Qed.

(** ** The claims *)

(** C1. When the lease table holds a lease for the key, [lock] attempts
    an extend of that lease: it asks the pool for a connection and,
    given one, calls extend on the lease over it.  When the extend
    succeeds, the primitive refreshing the lease in place, [lock] does
    nothing more than give the connection back: the lease it returns is
    the entry of the lease table for that key, the extended lease. *)
Theorem lock_extend_success_updates_table env w self host ttl l :
  extends_in_place env ->
  _getLock (resourceId host) self = Some l ->
  let o := run env (lock host ttl self) w in
  extend_attempted l ttl (trace o) /\
  forall l', extend_result (trace o) = Some (inr l') ->
    (exists c,
        trace o = [Acquired REDIS_DISTLOCK.DB (inr c);
                   Extended [Connection c] l ttl (inr l');
                   Released REDIS_DISTLOCK.DB c]) /\
    result o = inr l' /\
    _getLock (resourceId host) (after o) = Some l'.
Proof.
  intros Henv Hheld o. split; [apply lock_starts_with_extend; exact Hheld |].
  intros l' Hext.
  assert (Hin : exists srv, In (Extended srv l ttl (inr l')) (trace o)).
  { destruct (lock_starts_with_extend env w self host ttl l Hheld)
      as [(e & rest & E) | (c & r & rest & E)]; fold o in E;
      rewrite E in Hext; simpl in Hext; [discriminate |].
    injection Hext as ->. exists [Connection c]. rewrite E. right. left.
    reflexivity. }
  destruct Hin as [srv Hin].
  assert (l' = l) as ->.
  { destruct (run_observed env _ _ w _ Hin) as (X & c & w' & Hobs).
    destruct c; simpl in Hobs; try discriminate.
    injection Hobs as -> -> -> Hr. eapply Henv. symmetry. exact Hr. }
  pose proof (lock_paths env w self host ttl) as P.
  cbv zeta in P. fold o in P.
  destruct P as [l0 tr l1 s1 H0 Ha | l0 tr1 e s1 tr2 r s2 H0 Ha Hb | tr r s1 H0 Ha];
    rewrite Hheld in H0; try discriminate; injection H0 as <-.
  - inversion Ha; subst. simpl in Hext. injection Hext as ->.
    unfold _getLock in *. simpl. rewrite Hheld. eauto.
  - inversion Ha; subst; simpl in Hext; discriminate.
Qed.

Lemma lock_extend_success_updates_table_witness :
  let o := run scripted_in_place (lock hostA 1000 holding_hostA)
             w_extend_in_place in
  extend_result (trace o) = Some (inr 1%nat) /\
  result o = inr 1%nat /\
  _getLock (resourceId hostA) (after o) = Some 1%nat /\
  heap (world_after o) !! 1%nat = Some (lease_v1 1100).
Proof.
  assert (Hheld : _getLock (resourceId hostA) holding_hostA = Some 1%nat)
    by (vm_compute; reflexivity).
  destruct (lock_extend_success_updates_table scripted_in_place
              w_extend_in_place holding_hostA hostA 1000 1%nat
              scripted_extends_in_place Hheld) as [_ H].
  assert (Hext : extend_result
            (trace (run scripted_in_place (lock hostA 1000 holding_hostA)
                      w_extend_in_place)) = Some (inr 1%nat))
    by (vm_compute; reflexivity).
  destruct (H 1%nat Hext) as (_ & Hr & Hl).
  split; [exact Hext | split; [exact Hr | split; [exact Hl |]]].
  vm_compute. reflexivity.
Defined.

(** C2 (as amended). When the lease table holds a lease for the key,
    [unlock] asks the pool for a connection and, given one, calls release
    on that lease over it and hands release's answer, error or not, to
    the callback; without a connection the callback gets the pool's
    error.  On both paths the lease table is left as it was: the entry
    for the key is still there after [unlock] returns. *)
Theorem unlock_releases_and_keeps_entry env w self host l :
  _getLock (resourceId host) self = Some l ->
  let o := run env (unlock host self) w in
  release_attempted l (trace o) (result o) /\
  _locks (after o) = _locks self /\
  _getLock (resourceId host) (after o) = Some l.
Proof.
  intros Hheld o. pose proof (unlock_paths env w self host l Hheld) as P.
  cbv zeta in P. fold o in P. split; [| split].
  - eapply release_path_attempted. exact P.
  - eapply release_path_keeps_locks. exact P.
  - unfold _getLock in *.
    rewrite (release_path_keeps_locks _ _ _ _ _ P). exact Hheld.
Qed.

Lemma unlock_releases_and_keeps_entry_witness :
  let o := run scripted (unlock hostA holding_hostA) (world [] [None]) in
  _getLock (resourceId hostA) holding_hostA = Some 1%nat /\
  release_attempted 1%nat (trace o) (result o) /\
  _getLock (resourceId hostA) (after o) = Some 1%nat.
Proof.
  assert (Hheld : _getLock (resourceId hostA) holding_hostA = Some 1%nat)
    by (vm_compute; reflexivity).
  destruct (unlock_releases_and_keeps_entry scripted (world [] [None])
              holding_hostA hostA 1%nat Hheld) as (Hr & _ & Hl).
  split; [exact Hheld | split; [exact Hr | exact Hl]].
Defined.

(** C2, as stated, fails: after [unlock], here with a release that
    reports an error, the lease table still has the entry for the key. *)
Lemma unlock_does_not_remove_entry :
  let o := run scripted (unlock hostA holding_hostA) w_release_error in
  _getLock (resourceId hostA) holding_hostA = Some 1%nat /\
  trace o = [Acquired 5 (inr 7%nat);
             Unlocked [Connection 7%nat] 1%nat (Some "release failed");
             Released 5 7%nat] /\
  result o = Some (Some "release failed") /\
  _getLock (resourceId hostA) (after o) = Some 1%nat /\
  _getLock (resourceId hostA) (after o) <> None.
Proof.
  vm_compute. repeat split; try reflexivity. discriminate.
Qed.

(** C3. When the extend attempt of [lock] fails, for whatever reason
    (no lease in the table, no pool connection, or the primitive refusing
    the extend), [lock] goes on with a fresh acquire attempt: its trace
    is the failed extend attempt, empty only when no lease was held,
    followed by the acquire attempt.  If the acquire succeeds the new
    lease is stored in the lease table under the key's resource and
    handed to the callback; if it fails the callback receives the error,
    no lease, and the table is as it was. *)
Theorem lock_falls_back_to_acquire env w self host ttl :
  let o := run env (lock host ttl self) w in
  extend_failed (_getLock (resourceId host) self) (trace o) = true ->
  exists pre acq,
    trace o = pre ++ acq /\
    failed_extend ttl (_getLock (resourceId host) self) pre /\
    acquire_outcome (resourceId host) ttl (_locks self)
      acq (result o) (_locks (after o)).
Proof.
  intros o Hfail. pose proof (lock_paths env w self host ttl) as P.
  cbv zeta in P. fold o in P.
  destruct P as [l0 tr l1 s1 H0 Ha | l0 tr1 e s1 tr2 r s2 H0 Ha Hb | tr r s1 H0 Ha];
    rewrite H0 in *.
  - inversion Ha; subst. simpl in Hfail. discriminate.
  - exists tr1, tr2. split; [reflexivity | split].
    + inversion Ha; subst; constructor.
    + rewrite <- (attempt_keeps_locks _ _ _ _ _ Ha).
      apply attempt_acquire_outcome. exact Hb.
  - exists [], tr. split; [reflexivity | split; [constructor |]].
    apply attempt_acquire_outcome. exact Ha.
Qed.

Lemma lock_falls_back_to_acquire_witness :
  let o := run scripted (lock hostA 1000 holding_hostA) w_reacquire in
  extend_failed (_getLock (resourceId hostA) holding_hostA) (trace o) = true /\
  exists pre acq,
    trace o = pre ++ acq /\
    failed_extend 1000 (_getLock (resourceId hostA) holding_hostA) pre /\
    acquire_outcome (resourceId hostA) 1000 (_locks holding_hostA)
      acq (result o) (_locks (after o)).
Proof.
  split; [vm_compute; reflexivity |].
  apply (lock_falls_back_to_acquire scripted w_reacquire holding_hostA hostA 1000).
  vm_compute; reflexivity.
Defined.

(** C4 (as amended). When the extend attempt on a held lease fails and
    the re-acquire attempt fails too, [lock] hands the acquire's error to
    the callback and leaves the lease table as it was: the lease stays in
    the table and a later lookup of the key still returns it. *)
Theorem failed_lock_keeps_lease env w self host ttl l e :
  _getLock (resourceId host) self = Some l ->
  let o := run env (lock host ttl self) w in
  extend_failed (Some l) (trace o) = true ->
  acquire_result (trace o) = Some (inl e) ->
  result o = inl e /\
  _locks (after o) = _locks self /\
  _getLock (resourceId host) (after o) = Some l.
Proof.
  intros Hheld o Hfail Hacq. pose proof (lock_paths env w self host ttl) as P.
  cbv zeta in P. fold o in P.
  destruct P as [l0 tr l1 s1 H0 Ha | l0 tr1 e1 s1 tr2 r s2 H0 Ha Hb | tr r s1 H0 Ha];
    rewrite Hheld in H0; try discriminate; injection H0 as <-.
  - inversion Ha; subst. simpl in Hfail. discriminate.
  - assert (Hr : r = inl e).
    { inversion Ha; subst; inversion Hb; subst; cbn in Hacq;
        inversion Hacq; reflexivity. }
    subst r. unfold _getLock in *. simpl.
    rewrite (attempt_keeps_locks _ _ _ _ _ Hb), (attempt_keeps_locks _ _ _ _ _ Ha).
    auto.
Qed.

Lemma failed_lock_keeps_lease_witness :
  let o := run scripted (lock hostA 1000 holding_hostA) w_both_fail in
  extend_failed (Some 1%nat) (trace o) = true /\
  result o = inl "lock: quorum not reached" /\
  _getLock (resourceId hostA) (after o) = Some 1%nat.
Proof.
  split; [vm_compute; reflexivity |].
  destruct (failed_lock_keeps_lease scripted w_both_fail holding_hostA hostA
              1000 1%nat "lock: quorum not reached") as (Hr & _ & Hl);
    [vm_compute; reflexivity .. | split; [exact Hr | exact Hl]].
Defined.

(** C4, as stated, fails: after a failed extend and a failed re-acquire
    the lookup of the key still finds the old lease. *)
Lemma failed_lock_does_not_remove_lease :
  let o := run scripted (lock hostA 1000 holding_hostA) w_both_fail in
  _getLock (resourceId hostA) holding_hostA = Some 1%nat /\
  trace o = [Acquired 5 (inr 7%nat);
             Extended [Connection 7%nat] 1%nat 1000
               (inl "extend: quorum not reached");
             Released 5 7%nat;
             Acquired 5 (inr 8%nat);
             Locked [Connection 8%nat] "batch:locks:hostA" 1000
               (inl "lock: quorum not reached");
             Released 5 8%nat] /\
  result o = inl "lock: quorum not reached" /\
  _getLock (resourceId hostA) (after o) = Some 1%nat /\
  _getLock (resourceId hostA) (after o) <> None.
Proof.
  vm_compute. repeat split; try reflexivity. discriminate.
Qed.

(** C5 (as amended). Calling [unlock] twice in succession on a key: when
    the table holds no lease for the key, both calls do nothing, no pool
    or release operation and no error.  When it holds one, the second
    call finds the same lease, which the first call left in the table,
    and repeats the release attempt on it: it takes a connection, calls
    release again and hands the pool's or release's answer, an error
    included, to its callback. *)
Theorem second_unlock_repeats_release env w self host :
  let o1 := run env (unlock host self) w in
  let o2 := run env (unlock host (after o1)) (world_after o1) in
  match _getLock (resourceId host) self with
  | Some l =>
      release_attempted l (trace o2) (result o2) /\
      _getLock (resourceId host) (after o2) = Some l
  | None =>
      trace o1 = [] /\ trace o2 = [] /\ result o2 = None /\ after o2 = self
  end.
Proof.
  intros o1 o2. destruct (_getLock (resourceId host) self) as [l|] eqn:Hheld.
  - pose proof (unlock_paths env w self host l Hheld) as P1.
    cbv zeta in P1. fold o1 in P1.
    assert (Hheld1 : _getLock (resourceId host) (after o1) = Some l).
    { unfold _getLock in *.
      rewrite (release_path_keeps_locks _ _ _ _ _ P1). exact Hheld. }
    pose proof (unlock_paths env (world_after o1) (after o1) host l Hheld1) as P2.
    cbv zeta in P2. fold o2 in P2. split.
    + eapply release_path_attempted. exact P2.
    + unfold _getLock in *.
      rewrite (release_path_keeps_locks _ _ _ _ _ P2). exact Hheld1.
  - assert (H1 : o1 = ([], (None, self), w))
      by (apply unlock_nothing_held; exact Hheld).
    assert (H2 : o2 = ([], (None, self), w)).
    { unfold o2. rewrite H1. simpl. apply unlock_nothing_held. exact Hheld. }
    rewrite H1, H2. repeat split.
Qed.

(** C5, as stated, fails: the second [unlock] on a held key takes a
    connection, calls release on the lease again, and hands the error
    that release reports to its callback. *)
Lemma second_unlock_is_not_a_no_op :
  let o1 := run scripted (unlock hostA holding_hostA) w_release_error in
  let o2 := run scripted (unlock hostA (after o1)) (world_after o1) in
  trace o1 = [Acquired 5 (inr 7%nat);
              Unlocked [Connection 7%nat] 1%nat (Some "release failed");
              Released 5 7%nat] /\
  trace o2 = [Acquired 5 (inr 8%nat);
              Unlocked [Connection 8%nat] 1%nat (Some "release failed again");
              Released 5 8%nat] /\
  result o2 = Some (Some "release failed again").
Proof.
  vm_compute. repeat split; reflexivity.
Qed.

(** C6 (as amended). A lease in the table whose expiry time has passed
    is still found by the next operation on its key and operated on: the
    provider never looks at the expiry.  [lock] attempts an extend on it;
    when the extend succeeds [lock] returns its lease and acquires
    nothing, and only when the attempt fails does it go on to a fresh
    acquire.  [unlock] attempts a release on it and leaves it in the
    table.  Both do what they do in any world with the same answers to
    come, whatever its clock and whatever the Lock objects hold. *)
Theorem expired_lease_still_operated_on (w : Script) self host ttl l :
  _getLock (resourceId host) self = Some l ->
  expired w l = true ->
  let o := run scripted (lock host ttl self) w in
  let u := run scripted (unlock host self) w in
  ((exists c l',
       trace o = [Acquired REDIS_DISTLOCK.DB (inr c);
                  Extended [Connection c] l ttl (inr l');
                  Released REDIS_DISTLOCK.DB c] /\
       result o = inr l' /\
       _locks (after o) = _locks self) \/
   (exists pre acq,
       trace o = pre ++ acq /\
       failed_extend ttl (Some l) pre /\
       acquire_outcome (resourceId host) ttl (_locks self)
         acq (result o) (_locks (after o)))) /\
  (release_attempted l (trace u) (result u) /\
   _getLock (resourceId host) (after u) = Some l) /\
  (forall w', same_scripts w w' ->
     (run scripted (lock host ttl self) w').1 = o.1 /\
     (run scripted (unlock host self) w').1 = u.1).
Proof.
  intros Hheld _ o u. split; [| split].
  - pose proof (lock_paths scripted w self host ttl) as P.
    cbv zeta in P. fold o in P.
    destruct P as [l0 tr l1 s1 H0 Ha | l0 tr1 e s1 tr2 r s2 H0 Ha Hb | tr r s1 H0 Ha];
      rewrite Hheld in H0; try discriminate; injection H0 as <-.
    + left. inversion Ha; subst. eauto.
    + right. exists tr1, tr2. split; [reflexivity | split].
      * inversion Ha; subst; constructor.
      * rewrite <- (attempt_keeps_locks _ _ _ _ _ Ha).
        apply attempt_acquire_outcome. exact Hb.
  - pose proof (unlock_paths scripted w self host l Hheld) as P.
    cbv zeta in P. fold u in P. split.
    + eapply release_path_attempted. exact P.
    + unfold _getLock in *.
      rewrite (release_path_keeps_locks _ _ _ _ _ P). exact Hheld.
  - intros w' Hsame. split; symmetry; apply run_same_scripts; exact Hsame.
Qed.

Lemma expired_lease_still_operated_on_witness :
  let o := run scripted (lock hostA 1000 holding_hostA) w_expired in
  let u := run scripted (unlock hostA holding_hostA) w_expired in
  let live := world [inl "lock has already expired"; inr (2%nat, lease_v2 1100)]
                [None] in
  expired w_expired 1%nat = true /\
  expired live 1%nat = false /\
  release_attempted 1%nat (trace u) (result u) /\
  (run scripted (lock hostA 1000 holding_hostA) live).1 = o.1 /\
  (run scripted (unlock hostA holding_hostA) live).1 = u.1.
Proof.
  split; [vm_compute; reflexivity | split; [vm_compute; reflexivity |]].
  destruct (expired_lease_still_operated_on w_expired holding_hostA hostA
              1000 1%nat) as (_ & (Hu & _) & Hw);
    [vm_compute; reflexivity .. |].
  split; [exact Hu |].
  apply Hw. repeat split.
Defined.

(** C6, as stated, fails: object 1 expired at 50 and it is now 100, yet
    [lock] calls extend on it before acquiring afresh, and [unlock] calls
    release on it and calls back, where with no lease held [unlock] does
    nothing. *)
Lemma expired_lease_is_not_discarded :
  let o := run scripted (lock hostA 1000 holding_hostA) w_expired in
  let u := run scripted (unlock hostA holding_hostA) w_expired in
  let n := run scripted (unlock hostA new_RedisDistlockLocker) w_expired in
  expired w_expired 1%nat = true /\
  _getLock (resourceId hostA) holding_hostA = Some 1%nat /\
  trace o = [Acquired 5 (inr 7%nat);
             Extended [Connection 7%nat] 1%nat 1000
               (inl "lock has already expired");
             Released 5 7%nat;
             Acquired 5 (inr 8%nat);
             Locked [Connection 8%nat] "batch:locks:hostA" 1000 (inr 2%nat);
             Released 5 8%nat] /\
  trace u = [Acquired 5 (inr 7%nat);
             Unlocked [Connection 7%nat] 1%nat None;
             Released 5 7%nat] /\
  result u = Some None /\
  _getLock (resourceId hostA) (after u) = Some 1%nat /\
  trace n = [] /\ result n = None.
Proof.
  vm_compute. repeat split; reflexivity.
Qed.

(** C7. Pool discipline: on every path of [lock] and of [unlock],
    whatever the pool and the primitive answer, every connection taken
    from the pool is given back exactly once before the callback runs,
    and the number of connections acquired equals the number released. *)
Theorem pool_acquires_equal_releases env w self host ttl :
  pool_discipline (trace (run env (lock host ttl self) w)) /\
  pool_discipline (trace (run env (unlock host self) w)).
Proof.
  split.
  - eapply lock_trace_discipline. apply lock_paths.
  - destruct (_getLock (resourceId host) self) as [l|] eqn:Hheld.
    + eapply unlock_trace_discipline. apply (unlock_paths env w self host l Hheld).
    + rewrite unlock_nothing_held by assumption. split; reflexivity.
Qed.

(** C9. The resource identifier of a key is the fixed prefix
    [batch:locks:] followed by the key: it is a function of the key, it
    carries the prefix, and distinct keys get distinct identifiers. *)
Theorem resourceId_injective (host1 host2 : string) :
  host1 <> host2 ->
  resourceId host1 = "batch:locks:" +:+ host1 /\
  String.prefix "batch:locks:" (resourceId host1) = true /\
  resourceId host1 <> resourceId host2.
Proof.
  intros Hne. split; [reflexivity | split].
  - unfold resourceId, REDIS_DISTLOCK.PREFIX. simpl.
    destruct host1; reflexivity.
  - unfold resourceId. intros Heq. apply Hne.
    exact (append_cancel_prefix _ _ _ Heq).
Qed.

Lemma resourceId_injective_witness :
  "hostA" <> "hostB" /\
  resourceId "hostA" = "batch:locks:hostA" /\
  resourceId "hostA" <> resourceId "hostB".
Proof.
  split; [discriminate |].
  destruct (resourceId_injective "hostA" "hostB") as (H1 & _ & H3);
    [discriminate | split; [exact H1 | exact H3]].
Defined.

(** C10. Every store operation of the provider (acquire, extend and
    release) runs with the server list of the shared Redlock instance
    overwritten by exactly the one connection just taken from the pool
    for that call: the list has length one, so the majority threshold
    over it is one, whatever the server list was before the call. *)
Theorem store_operations_over_one_connection env w self host ttl :
  (over_own_connection None (trace (run env (lock host ttl self) w)) = true /\
   forallb single_node (trace (run env (lock host ttl self) w)) = true) /\
  (over_own_connection None (trace (run env (unlock host self) w)) = true /\
   forallb single_node (trace (run env (unlock host self) w)) = true).
Proof.
  split.
  - eapply lock_trace_single_node. apply lock_paths.
  - destruct (_getLock (resourceId host) self) as [l|] eqn:Hheld.
    + eapply unlock_trace_single_node.
      apply (unlock_paths env w self host l Hheld).
    + rewrite unlock_nothing_held by assumption. split; reflexivity.
Qed.

(** ** Further properties of the provider *)

Lemma lock_table_cases env w self host ttl :
  let o := run env (lock host ttl self) w in
  match result o with
  | inl _ => _locks (after o) = _locks self
  | inr l =>
      (_locks (after o) = _locks self /\
       is_Some (_getLock (resourceId host) self)) \/
      _locks (after o) = <[resourceId host := l]> (_locks self)
  end.
Proof.
  pose proof (lock_paths env w self host ttl) as P. cbv zeta in *.
  destruct P as [l0 tr l1 s1 H0 Ha | l0 tr1 e s1 tr2 r s2 H0 Ha Hb | tr r s1 H0 Ha].
  - left. split; [eapply attempt_keeps_locks; exact Ha | rewrite H0; eauto].
  - pose proof (attempt_keeps_locks _ _ _ _ _ Ha) as E1.
    pose proof (attempt_keeps_locks _ _ _ _ _ Hb) as E2.
    destruct r as [e'|l']; simpl; [| right]; congruence.
  - pose proof (attempt_keeps_locks _ _ _ _ _ Ha) as E1.
    destruct r as [e'|l']; simpl; [| right]; congruence.
Qed.

Lemma unlock_keeps_table env w self host :
  _locks (after (run env (unlock host self) w)) = _locks self.
Proof.
  destruct (_getLock (resourceId host) self) as [l|] eqn:Hheld.
  - eapply release_path_keeps_locks. apply (unlock_paths env w self host l Hheld).
  - rewrite unlock_nothing_held by assumption. reflexivity.
Qed.

(** What one request does to the lease table: nothing, or one write at
    the resource of its host. *)
Lemma request_table env q self w :
  _locks (request env q self w).1.2 = _locks self \/
  exists l, _locks (request env q self w).1.2
            = <[resourceId (request_host q) := l]> (_locks self).
Proof.
  destruct q as [host ttl | host]; simpl.
  - pose proof (lock_table_cases env w self host ttl) as H. cbv zeta in H.
    destruct (result (run env (lock host ttl self) w)) as [e|l].
    + left. exact H.
    + destruct H as [[H _] | H]; [left | right; exists l]; exact H.
  - left. apply unlock_keeps_table.
Qed.

Lemma serve_cons env q rest self w :
  serve env (q :: rest) self w =
  let o := request env q self w in
  let o' := serve env rest o.1.2 o.2 in
  (o.1.1 ++ o'.1.1, o'.1.2, o'.2).
Proof.
  simpl. destruct (request env q self w) as [[tr1 s1] w1]. simpl.
  destruct (serve env rest s1 w1) as [[tr2 s2] w2]. reflexivity.
Qed.

(** X1. A [lock] that reports an error leaves the lease table as it
    was.  A [lock] that returns a lease leaves the table unchanged (the
    extend path) or writes exactly the returned lease at the resource of
    its host; either way the table then holds a lease for that host. *)
Theorem lock_writes_only_returned_lease env w self host ttl :
  let o := run env (lock host ttl self) w in
  match result o with
  | inl _ => _locks (after o) = _locks self
  | inr l =>
      is_Some (_getLock (resourceId host) (after o)) /\
      (_locks (after o) = _locks self \/
       _locks (after o) = <[resourceId host := l]> (_locks self))
  end.
Proof.
  intros o. pose proof (lock_table_cases env w self host ttl) as H.
  cbv zeta in H. fold o in H. destruct (result o) as [e|l]; [exact H |].
  unfold _getLock in *. destruct H as [[H Hs] | H]; rewrite H.
  - split; [exact Hs | left; reflexivity].
  - split; [rewrite lookup_insert_eq; eauto | right; reflexivity].
Qed.

(** X2. Once the lease table has an entry for a resource, it has one
    after any sequence of [lock] and [unlock] requests: no request ever
    removes an entry. *)
Theorem held_lease_is_never_dropped env qs self w r :
  is_Some (_getLock r self) ->
  is_Some (_getLock r (serve env qs self w).1.2).
Proof.
  revert self w. induction qs as [| q rest IH]; intros self w Hheld;
    [exact Hheld |].
  rewrite serve_cons. cbv zeta. simpl. apply IH.
  unfold _getLock in *.
  destruct (request_table env q self w) as [E | [l E]]; rewrite E.
  - exact Hheld.
  - apply lookup_insert_is_Some'. right. exact Hheld.
Qed.

Lemma held_lease_is_never_dropped_witness :
  is_Some (_getLock (resourceId hostA) holding_hostA) /\
  is_Some (_getLock (resourceId hostA)
             (serve scripted
                [UnlockRequest hostA; LockRequest hostA 1000; UnlockRequest hostA]
                holding_hostA w_both_fail).1.2).
Proof.
  assert (H : is_Some (_getLock (resourceId hostA) holding_hostA))
    by (vm_compute; eauto).
  split; [exact H |].
  apply (held_lease_is_never_dropped scripted). exact H.
Defined.

(** X3. Requests for other hosts never touch the lease of a host: after
    any sequence of requests none of which names [host], the table entry
    of [host] is what it was. *)
Theorem other_hosts_are_untouched env qs self w host :
  Forall (fun q => request_host q <> host) qs ->
  _getLock (resourceId host) (serve env qs self w).1.2
  = _getLock (resourceId host) self.
Proof.
  revert self w. induction qs as [| q rest IH]; intros self w Hqs;
    [reflexivity |].
  inversion Hqs as [| q' rest' Hq Hrest]; subst.
  rewrite serve_cons. cbv zeta. simpl. rewrite IH by exact Hrest.
  unfold _getLock.
  destruct (request_table env q self w) as [E | [l E]]; rewrite E;
    [reflexivity |].
  apply lookup_insert_ne. unfold resourceId. intros Heq. apply Hq.
  exact (append_cancel_prefix _ _ _ Heq).
Qed.

Lemma other_hosts_are_untouched_witness :
  _getLock (resourceId "hostB")
    (serve scripted [LockRequest hostA 1000; UnlockRequest hostA]
       (_setLock (resourceId "hostB") 5%nat holding_hostA) w_reacquire).1.2
  = Some 5%nat.
Proof.
  rewrite (other_hosts_are_untouched scripted).
  - vm_compute. reflexivity.
  - repeat constructor; discriminate.
Defined.

Lemma held_after_app h tr1 tr2 :
  held_after h (tr1 ++ tr2) = held_after (held_after h tr1) tr2.
Proof.
  revert h. induction tr1 as [| o tr1 IH]; intros h; [reflexivity |].
  destruct o as [db [e|c] | | | |]; simpl; apply IH.
Qed.

Lemma peak_held_app h tr1 tr2 :
  peak_held h (tr1 ++ tr2)
  = Nat.max (peak_held h tr1) (peak_held (held_after h tr1) tr2).
Proof.
  revert h. induction tr1 as [| o tr1 IH]; intros h; simpl.
  - assert (h <= peak_held h tr2)%nat; [| lia].
    revert h. induction tr2 as [| o tr2 IH2]; intros h; simpl; [lia |].
    destruct o as [db [e|c] | | | |]; try apply IH2; lia.
  - destruct o as [db [e|c] | | | |]; simpl; rewrite ?IH; lia.
Qed.

(** One request takes at most one connection over what is held and
    gives it back. *)
Lemma request_connections env q self w h :
  held_after h (request env q self w).1.1 = h /\
  (peak_held h (request env q self w).1.1 <= S h)%nat.
Proof.
  destruct q as [host ttl | host]; simpl.
  - pose proof (lock_paths env w self host ttl) as P. cbv zeta in P.
    destruct P; invert_attempts; simpl; split; lia.
  - destruct (_getLock (resourceId host) self) as [l|] eqn:Hheld.
    + pose proof (unlock_paths env w self host l Hheld) as P. cbv zeta in P.
      destruct P; simpl; split; lia.
    + rewrite unlock_nothing_held by assumption. simpl. split; lia.
Qed.

(** X4. Over any sequence of requests the provider holds at most one
    pooled connection at any time, and none when the sequence is done. *)
Theorem one_connection_at_a_time env qs self w :
  (peak_held 0 (serve env qs self w).1.1 <= 1)%nat /\
  held_after 0 (serve env qs self w).1.1 = 0%nat.
Proof.
  revert self w. induction qs as [| q rest IH]; intros self w;
    [simpl; split; [lia | reflexivity] |].
  rewrite serve_cons. cbv zeta. simpl.
  destruct (request_connections env q self w 0) as [Hh Hp].
  destruct (IH (request env q self w).1.2 (request env q self w).2) as [IHp IHh].
  rewrite peak_held_app, held_after_app, Hh. split; [lia | exact IHh].
Qed.

(** X5. The provider does not retry: one [lock] asks the pool for a
    connection at most twice and calls the primitive's extend at most
    once, and only when a lease is held, its lock at most once and its
    unlock never; one [unlock] asks the pool at most once, calls the
    primitive's unlock at most once and nothing else. *)
Theorem calls_per_request env w self host ttl :
  let o := run env (lock host ttl self) w in
  let u := run env (unlock host self) w in
  ((count is_pool_request (trace o) <= 2)%nat /\
   (count is_extend (trace o)
    <= match _getLock (resourceId host) self with Some _ => 1 | None => 0 end)%nat /\
   (count is_lock (trace o) <= 1)%nat /\
   count is_unlock (trace o) = 0%nat) /\
  ((count is_pool_request (trace u) <= 1)%nat /\
   (count is_unlock (trace u) <= 1)%nat /\
   count is_extend (trace u) = 0%nat /\
   count is_lock (trace u) = 0%nat).
Proof.
  intros o u. split.
  - pose proof (lock_paths env w self host ttl) as P. cbv zeta in P. fold o in P.
    destruct P as [l0 tr l1 s1 H0 Ha | l0 tr1 e s1 tr2 r s2 H0 Ha Hb | tr r s1 H0 Ha];
      rewrite H0; invert_attempts; repeat split; vm_compute; lia.
  - subst u. destruct (_getLock (resourceId host) self) as [l|] eqn:Hheld.
    + pose proof (unlock_paths env w self host l Hheld) as P. cbv zeta in P.
      destruct P; repeat split; vm_compute; lia.
    + rewrite unlock_nothing_held by assumption.
      repeat split; vm_compute; lia.
Qed.

(** X6. Every event of a request is addressed as the caller asked: all
    pool traffic is on database 5, a lock call names the resource
    [batch:locks:] followed by the host and carries the caller's ttl, an
    extend is on the lease the table held, with the caller's ttl, and an
    unlock is on the lease the table held. *)
Theorem requests_are_addressed env w self host ttl :
  forallb (addressed host ttl (_getLock (resourceId host) self))
    (trace (run env (lock host ttl self) w)) = true /\
  forallb (addressed host ttl (_getLock (resourceId host) self))
    (trace (run env (unlock host self) w)) = true.
Proof.
  split.
  - pose proof (lock_paths env w self host ttl) as P. cbv zeta in P.
    destruct P as [l0 tr l1 s1 H0 Ha | l0 tr1 e s1 tr2 r s2 H0 Ha Hb | tr r s1 H0 Ha];
      rewrite H0; invert_attempts; cbn;
      rewrite ?bool_decide_eq_true_2 by reflexivity; reflexivity.
  - destruct (_getLock (resourceId host) self) as [l|] eqn:Hheld.
    + pose proof (unlock_paths env w self host l Hheld) as P. cbv zeta in P.
      destruct P; cbn;
        rewrite ?bool_decide_eq_true_2 by reflexivity; reflexivity.
    + rewrite unlock_nothing_held by assumption. reflexivity.
Qed.

(** X7. [unlock] calls its callback exactly when the lease table holds a
    lease for the host.  With no lease held it does nothing at all: no
    pool or primitive call, no change of the provider, and the callback
    is never called. *)
Theorem unlock_calls_back_iff_lease_held env w self host :
  let u := run env (unlock host self) w in
  match _getLock (resourceId host) self with
  | Some _ => exists e, result u = Some e
  | None => result u = None /\ trace u = [] /\ after u = self
  end.
Proof.
  intros u. subst u. destruct (_getLock (resourceId host) self) as [l|] eqn:Hheld.
  - pose proof (unlock_paths env w self host l Hheld) as P. cbv zeta in P.
    destruct P; eauto.
  - rewrite unlock_nothing_held by assumption. repeat split.
Qed.

(** X8. The server list of the shared Redlock instance is never put
    back: after a request it is the one connection the request took
    last, although that connection has gone back to the pool, and it is
    what it was when the request took none.  The retry options of the
    instance never change. *)
Theorem servers_keep_last_connection env w self host ttl :
  let o := run env (lock host ttl self) w in
  let u := run env (unlock host self) w in
  (servers (redlock (after o)) = servers_left self (trace o) /\
   retryCount (redlock (after o)) = retryCount (redlock self) /\
   retryDelay (redlock (after o)) = retryDelay (redlock self)) /\
  (servers (redlock (after u)) = servers_left self (trace u) /\
   retryCount (redlock (after u)) = retryCount (redlock self) /\
   retryDelay (redlock (after u)) = retryDelay (redlock self)).
Proof.
  intros o u. split.
  - pose proof (lock_paths env w self host ttl) as P. cbv zeta in P. fold o in P.
    destruct P as [l0 tr l1 s1 H0 Ha | l0 tr1 e s1 tr2 r s2 H0 Ha Hb | tr r s1 H0 Ha];
      invert_attempts; try destruct r; repeat split.
  - subst u. destruct (_getLock (resourceId host) self) as [l|] eqn:Hheld.
    + pose proof (unlock_paths env w self host l Hheld) as P. cbv zeta in P.
      destruct P; repeat split.
    + rewrite unlock_nothing_held by assumption. repeat split.
Qed.

(** X9. A lease that [lock] acquired afresh is the one the next request
    on the same host works on: the next [lock] starts an extend attempt
    on it, and the next [unlock] attempts to release it. *)
Theorem acquired_lease_is_used_next env w self host ttl l :
  let o := run env (lock host ttl self) w in
  acquire_result (trace o) = Some (inr l) ->
  result o = inr l /\
  _getLock (resourceId host) (after o) = Some l /\
  (forall ttl',
      extend_attempted l ttl'
        (trace (run env (lock host ttl' (after o)) (world_after o)))) /\
  (let u := run env (unlock host (after o)) (world_after o) in
   release_attempted l (trace u) (result u)).
Proof.
  intros o Hacq.
  assert (H : result o = inr l /\ _getLock (resourceId host) (after o) = Some l).
  { pose proof (lock_paths env w self host ttl) as P. cbv zeta in P. fold o in P.
    unfold _getLock.
    destruct P as [l0 tr l1 s1 H0 Ha | l0 tr1 e s1 tr2 r s2 H0 Ha Hb | tr r s1 H0 Ha];
      invert_attempts; cbn in Hacq; try discriminate;
      inversion Hacq; subst; simpl; rewrite lookup_insert_eq; split; reflexivity. }
  destruct H as [Hr Hl]. split; [exact Hr | split; [exact Hl | split]].
  - intros ttl'. apply lock_starts_with_extend. exact Hl.
  - cbv zeta. eapply release_path_attempted. apply unlock_paths. exact Hl.
Qed.

Lemma acquired_lease_is_used_next_witness :
  let o := run scripted (lock hostA 1000 new_RedisDistlockLocker) w_fresh in
  let o' := run scripted (lock hostA 1000 (after o)) (world_after o) in
  acquire_result (trace o) = Some (inr 1%nat) /\
  result o = inr 1%nat /\
  extend_attempted 1%nat 1000 (trace o').
Proof.
  assert (Hacq : acquire_result
            (trace (run scripted (lock hostA 1000 new_RedisDistlockLocker) w_fresh))
          = Some (inr 1%nat)) by (vm_compute; reflexivity).
  destruct (acquired_lease_is_used_next scripted w_fresh new_RedisDistlockLocker
              hostA 1000 1%nat Hacq) as (Hr & _ & Hext & _).
  split; [exact Hacq | split; [exact Hr | exact (Hext 1000)]].
Defined.

(** ** The SVG format *)

Section SvgFormatFacts.

Import SvgFormat.

Context {Box : Type} (parse_box : string -> option Box).
Context (grow : Box -> Box) (view_box : Box -> string).
Context (opts : Opts).

Lemma push_shape_fields g gdims (st : t (Box := Box)) :
  totalRows (push_shape g gdims st) = totalRows st /\
  bbox (push_shape g gdims st) = bbox st /\
  error (push_shape g gdims st) = error st.
Proof.
  unfold push_shape. repeat case_match; repeat split.
Qed.

Lemma push_shape_buffers g gdims (st : t (Box := Box)) :
  points (push_shape g gdims st)
  = points st ++ (if loose_eq_digit gdims 0 then [circle g] else []) /\
  lines (push_shape g gdims st)
  = lines st ++ (if loose_eq_digit gdims 0 then []
                 else if loose_eq_digit gdims 1 then [line_path g] else []) /\
  polys (push_shape g gdims st)
  = polys st ++ (if loose_eq_digit gdims 0 then []
                 else if loose_eq_digit gdims 1 then []
                 else if loose_eq_digit gdims 2 then [poly_path g] else []).
Proof.
  unfold push_shape.
  destruct (loose_eq_digit gdims 0);
    [| destruct (loose_eq_digit gdims 1);
       [| destruct (loose_eq_digit gdims 2)]];
    simpl; rewrite ?app_nil_r; auto.
Qed.

(** A row with a column [hasOwnProperty] is counted, and the call
    throws. *)
Lemma row_threw_at_own_check row (st : t (Box := Box)) :
  is_Some (row !! "hasOwnProperty") ->
  handleQueryRow parse_box opts row st
  = ({| totalRows := totalRows st + 1; bbox := bbox st; polys := polys st;
        lines := lines st; points := points st; error := error st |}, true).
Proof.
  intros [v Hv]. unfold handleQueryRow. rewrite Hv. reflexivity.
Qed.

(** The formatter after any other row: the row is counted and the error
    noted; a row with a geometry also goes through [push_shape] and may
    set the box, when none is set. *)
Lemma row_cases row (st : t (Box := Box)) :
  row !! "hasOwnProperty" = None ->
  let counted :=
    {| totalRows := totalRows st + 1; bbox := bbox st; polys := polys st;
       lines := lines st; points := points st;
       error := match row !! gn opts with
                | Some _ => error st
                | None => Some (missing_column opts)
                end |} in
  let r := handleQueryRow parse_box opts row st in
  match row !! gn opts with
  | Some g =>
      if falsy (Some g) then r = (counted, false)
      else
        let pushed := push_shape g (row !! (gn opts +:+ "_dimension")) counted in
        totalRows r.1 = totalRows pushed /\ polys r.1 = polys pushed /\
        lines r.1 = lines pushed /\ points r.1 = points pushed /\
        error r.1 = error pushed /\
        match bbox st with
        | Some b => bbox r.1 = Some b /\ r.2 = false
        | None =>
            match row !! (gn opts +:+ "_box") with
            | Some (VText txt) =>
                bbox r.1 = parse_box txt /\
                r.2 = bool_decide (parse_box txt = None)
            | _ => bbox r.1 = None /\ r.2 = true
            end
        end
  | None => r = (counted, false)
  end.
Proof.
  intros Hown. cbv zeta. unfold handleQueryRow. rewrite Hown.
  destruct (row !! gn opts) as [g|]; [| reflexivity].
  destruct (falsy (Some g)); [reflexivity |].
  match goal with
  | |- context [push_shape g ?d ?s] =>
      destruct (push_shape_fields g d s) as (_ & Hb & _);
      simpl in Hb; rewrite Hb
  end.
  destruct (bbox st) as [b|]; [repeat split; exact Hb |].
  destruct (row !! (gn opts +:+ "_box")) as [[| txt |]|];
    try destruct (parse_box txt) as [box|]; repeat split; exact Hb.
Qed.


Lemma row_error row (st : t (Box := Box)) :
  row !! "hasOwnProperty" = None ->
  error (handleQueryRow parse_box opts row st).1
  = match row !! gn opts with
    | Some _ => error st
    | None => Some (missing_column opts)
    end.
Proof.
  intros Hown. pose proof (row_cases row st Hown) as H. cbv zeta in H.
  destruct (row !! gn opts) as [g|]; [| rewrite H; reflexivity].
  destruct (falsy (Some g)); [rewrite H; reflexivity |].
  destruct H as (_ & _ & _ & _ & He & _). rewrite He.
  match goal with
  | |- context [push_shape g ?d ?s] =>
      destruct (push_shape_fields g d s) as (_ & _ & E); exact E
  end.
Qed.

Lemma row_buffers row (st : t (Box := Box)) :
  let st' := (handleQueryRow parse_box opts row st).1 in
  points st' = points st ++ option_list (circle <$> shape_of opts 0 row) /\
  lines st' = lines st ++ option_list (line_path <$> shape_of opts 1 row) /\
  polys st' = polys st ++ option_list (poly_path <$> shape_of opts 2 row).
Proof.
  cbv zeta. unfold shape_of.
  destruct (row !! "hasOwnProperty") as [v|] eqn:Hown.
  { rewrite row_threw_at_own_check by eauto. simpl. rewrite !app_nil_r. auto. }
  pose proof (row_cases row st Hown) as H. cbv zeta in H.
  destruct (row !! gn opts) as [g|];
    [| rewrite H; simpl; rewrite !app_nil_r; auto].
  destruct (falsy (Some g)); [rewrite H; simpl; rewrite !app_nil_r; auto |].
  destruct H as (_ & Hy & Hl & Hp & _). rewrite Hy, Hl, Hp.
  match goal with
  | |- context [push_shape g ?d ?s] =>
      destruct (push_shape_buffers g d s) as (Ep & El & Ey);
      rewrite Ep, El, Ey
  end.
  destruct (loose_eq_digit _ 0);
    [| destruct (loose_eq_digit _ 1); [| destruct (loose_eq_digit _ 2)]];
    simpl; auto.
Qed.

(** A call that returned was on a row without a column
    [hasOwnProperty]. *)
Lemma row_returned row (st : t (Box := Box)) :
  (handleQueryRow parse_box opts row st).2 = false ->
  row !! "hasOwnProperty" = None.
Proof.
  destruct (row !! "hasOwnProperty") as [v|] eqn:Hown; [| reflexivity].
  rewrite row_threw_at_own_check by eauto. discriminate.
Qed.

Lemma rows_cons row rows (st st' : t (Box := Box)) :
  handleRows parse_box opts (row :: rows) st = Some st' ->
  (handleQueryRow parse_box opts row st).2 = false /\
  handleRows parse_box opts rows (handleQueryRow parse_box opts row st).1
  = Some st'.
Proof.
  simpl. destruct (handleQueryRow parse_box opts row st).2; [discriminate |].
  auto.
Qed.

Lemma rows_error_after_missing rows (st st' : t (Box := Box)) :
  error st = Some (missing_column opts) ->
  handleRows parse_box opts rows st = Some st' ->
  error st' = Some (missing_column opts).
Proof.
  revert st. induction rows as [| row rows IH]; intros st Hst Hrows.
  - injection Hrows as <-. exact Hst.
  - apply rows_cons in Hrows as [Hret Hrows].
    refine (IH _ _ Hrows).
    rewrite row_error by (eapply row_returned; exact Hret).
    destruct (row !! gn opts); auto.
Qed.

Lemma rows_error_missing rows row (st st' : t (Box := Box)) :
  row ∈ rows ->
  row !! gn opts = None ->
  handleRows parse_box opts rows st = Some st' ->
  error st' = Some (missing_column opts).
Proof.
  revert st. induction rows as [| row0 rows IH]; intros st Hin Hrow Hrows.
  - inversion Hin.
  - apply rows_cons in Hrows as [Hret Hrows].
    apply elem_of_cons in Hin as [<- | Hin].
    + eapply rows_error_after_missing; [| exact Hrows].
      rewrite row_error by (eapply row_returned; exact Hret).
      rewrite Hrow. reflexivity.
    + eapply IH; eauto.
Qed.

Lemma rows_error_none rows (st st' : t (Box := Box)) :
  Forall (fun row : Row => is_Some (row !! gn opts)) rows ->
  handleRows parse_box opts rows st = Some st' ->
  error st' = error st.
Proof.
  revert st. induction rows as [| row rows IH]; intros st Hall Hrows.
  - injection Hrows as <-. reflexivity.
  - inversion Hall as [| ? ? [g Hg] Hrest]; subst.
    apply rows_cons in Hrows as [Hret Hrows].
    rewrite (IH _ Hrest Hrows).
    rewrite row_error by (eapply row_returned; exact Hret).
    rewrite Hg. reflexivity.
Qed.

Lemma rows_buffers rows (st st' : t (Box := Box)) :
  handleRows parse_box opts rows st = Some st' ->
  points st' = points st ++ omap (fun row => circle <$> shape_of opts 0 row) rows /\
  lines st' = lines st ++ omap (fun row => line_path <$> shape_of opts 1 row) rows /\
  polys st' = polys st ++ omap (fun row => poly_path <$> shape_of opts 2 row) rows.
Proof.
  revert st. induction rows as [| row rows IH]; intros st Hrows.
  - injection Hrows as <-. simpl. rewrite !app_nil_r. auto.
  - apply rows_cons in Hrows as [_ Hrows].
    destruct (IH _ Hrows) as (Hp & Hl & Hy).
    destruct (row_buffers row st) as (Hp1 & Hl1 & Hy1).
    rewrite Hp, Hl, Hy, Hp1, Hl1, Hy1. rewrite <- !app_assoc. simpl.
    destruct (shape_of opts 0 row), (shape_of opts 1 row),
      (shape_of opts 2 row); simpl; auto.
Qed.



Lemma shape_of_own_check d row :
  is_Some (row !! "hasOwnProperty") -> shape_of opts d row = None.
Proof. intros [v Hv]. unfold shape_of. rewrite Hv. reflexivity. Qed.

End SvgFormatFacts.

Section SvgFormatProperties.

Import SvgFormat.

Context {Box : Type} (parse_box : string -> option Box).
Context (grow : Box -> Box) (view_box : Box -> string).
Context (opts : Opts).

(** X11. The bounding box is taken once.  For the geometry column
    [the_geom] and a row built by the driver: when the formatter has a
    box, a further row does not change it, and the call throws exactly
    when the row has a column named [hasOwnProperty]. *)
Theorem bbox_is_set_once row (st : t (Box := Box)) b :
  gn opts = "the_geom" ->
  plain row ->
  bbox st = Some b ->
  bbox (handleQueryRow parse_box opts row st).1 = Some b /\
  (handleQueryRow parse_box opts row st).2
  = bool_decide (is_Some (row !! "hasOwnProperty")).
Proof.
  intros _ _ Hb. destruct (row !! "hasOwnProperty") as [v|] eqn:Hown.
  - rewrite row_threw_at_own_check by (rewrite Hown; eauto).
    split; [exact Hb | reflexivity].
  - pose proof (row_cases parse_box opts row st Hown) as H.
    cbv zeta in H. rewrite Hb in H.
    replace (bool_decide (is_Some (@None Value))) with false
      by (symmetry; apply bool_decide_eq_false; intros [? ?]; discriminate).
    destruct (row !! gn opts) as [g|]; [| rewrite H; auto].
    destruct (falsy (Some g)); [rewrite H; auto |].
    destruct H as (_ & _ & _ & _ & _ & H1 & H2). auto.
Qed.


(** X13. For the geometry column [the_geom] and rows built by the
    driver, when [handleQueryRow] has returned on every row: one row
    without the geometry column makes the whole response an error.
    Whatever the other rows hold, [handleQueryEnd] then writes nothing
    to the sink, does not end it, and hands the callback the error that
    the column does not exist. *)
Theorem missing_column_fails_the_response rows row (st st' : t (Box := Box)) :
  gn opts = "the_geom" ->
  Forall plain rows ->
  handleRows parse_box opts rows st = Some st' ->
  row ∈ rows ->
  row !! gn opts = None ->
  handleQueryEnd grow view_box opts st'
  = ([CallbackError (missing_column opts)], st').
Proof.
  intros _ _ Hrows Hin Hrow.
  unfold handleQueryEnd.
  rewrite (rows_error_missing parse_box opts rows row st st' Hin Hrow Hrows).
  reflexivity.
Qed.

(** X14. For the geometry column [the_geom] and rows built by the
    driver that all have the geometry column, with a geometry that
    prints in decimal when it is a number: when [handleQueryRow] has
    returned on every row, the formatter started afresh writes the
    document in five chunks: the header, then the circles of the rows of
    dimension 0, the paths of the rows of dimension 1 and the paths of
    the rows of dimension 2, each group in row order and joined by line
    feeds, then the closing tag; it ends the sink, calls back without an
    error, and its buffers are empty afterwards. *)
Theorem document_groups_shapes_by_dimension rows (st : t (Box := Box)) :
  gn opts = "the_geom" ->
  Forall plain rows ->
  Forall (fun row : Row =>
            is_Some (row !! gn opts) /\ printable (row !! gn opts) = true)
    rows ->
  handleRows parse_box opts rows new = Some st ->
  let out := handleQueryEnd grow view_box opts st in
  written out.1
  = [ join nl (header view_box (grow <$> bbox st));
      join nl (omap (fun row => circle <$> shape_of opts 0 row) rows);
      join nl (omap (fun row => line_path <$> shape_of opts 1 row) rows);
      join nl (omap (fun row => poly_path <$> shape_of opts 2 row) rows);
      "</svg>" ] /\
  (exists evs, out.1 = evs ++ [SinkEnd; Callback] /\
               Forall (fun e => e <> SinkEnd /\ e <> Callback) evs) /\
  points out.2 = [] /\ lines out.2 = [] /\ polys out.2 = [].
Proof.
  intros _ _ Hall Hrows out.
  assert (He : error st = None).
  { rewrite (rows_error_none parse_box opts rows new st); [reflexivity | | exact Hrows].
    eapply Forall_impl; [exact Hall |]. intros row [H _]. exact H. }
  destruct (rows_buffers parse_box opts rows new st Hrows) as (Hp & Hl & Hy).
  simpl in Hp, Hl, Hy.
  unfold out, handleQueryEnd. rewrite He, Hp, Hl, Hy.
  split; [| split; [| repeat split]].
  - destruct (beforeSink opts), (profiler opts); reflexivity.
  - cbn [fst]. destruct (beforeSink opts), (profiler opts); simpl;
      first [ eexists [_; _; _; _; _; _; _]; split;
                [reflexivity | repeat constructor; discriminate]
            | eexists [_; _; _; _; _; _]; split;
                [reflexivity | repeat constructor; discriminate]
            | eexists [_; _; _; _; _]; split;
                [reflexivity | repeat constructor; discriminate] ].
Qed.

End SvgFormatProperties.

Lemma bbox_is_set_once_witness :
  let st := {| SvgFormat.totalRows := 1; SvgFormat.bbox := Some "BOX(0 0,10 10)";
               SvgFormat.polys := []; SvgFormat.lines := [];
               SvgFormat.points := []; SvgFormat.error := None |} in
  let r := SvgFormat.handleQueryRow keep_text svg_opts
             (svg_row (SvgFormat.VText "M 0 0 L 1 1") 1) st in
  SvgFormat.bbox r.1 = Some "BOX(0 0,10 10)" /\ r.2 = false.
Proof.
  cbv zeta.
  destruct (bbox_is_set_once keep_text svg_opts
              (svg_row (SvgFormat.VText "M 0 0 L 1 1") 1)
              {| SvgFormat.totalRows := 1;
                 SvgFormat.bbox := Some "BOX(0 0,10 10)";
                 SvgFormat.polys := []; SvgFormat.lines := [];
                 SvgFormat.points := []; SvgFormat.error := None |}
              "BOX(0 0,10 10)") as [Hb Ht];
    [reflexivity | vm_compute; reflexivity | reflexivity |].
  split; [exact Hb |]. rewrite Ht. vm_compute. reflexivity.
Defined.


Lemma missing_column_fails_the_response_witness :
  let rows := [svg_row (SvgFormat.VText "M 0 0 L 1 1") 1; ∅] in
  exists st,
    SvgFormat.handleRows keep_text svg_opts rows SvgFormat.new = Some st /\
    SvgFormat.written
      (SvgFormat.handleQueryEnd (fun b : string => b) (fun _ => "")
         svg_opts st).1
    = [].
Proof.
  cbv zeta. eexists. split; [vm_compute; reflexivity |].
  rewrite (missing_column_fails_the_response keep_text (fun b : string => b)
             (fun _ => "") svg_opts
             [svg_row (SvgFormat.VText "M 0 0 L 1 1") 1; ∅] ∅ SvgFormat.new).
  - reflexivity.
  - reflexivity.
  - repeat constructor.
  - vm_compute. reflexivity.
  - apply list_elem_of_In. right. left. reflexivity.
  - reflexivity.
Defined.

Lemma document_groups_shapes_by_dimension_witness :
  let rows := [svg_row (SvgFormat.VText "M 0 0 L 1 1") 1;
               svg_row (SvgFormat.VText "cx=1 cy=-2") 0] in
  exists st,
    SvgFormat.handleRows keep_text svg_opts rows SvgFormat.new = Some st /\
    (SvgFormat.written
       (SvgFormat.handleQueryEnd (fun b : string => b) (fun _ => "")
          svg_opts st).1)
      !! 1%nat
    = Some ("<circle r=" +:+ SvgFormat.dq +:+ "5" +:+ SvgFormat.dq
            +:+ " cx=1 cy=-2 />").
Proof.
  cbv zeta. eexists. split; [vm_compute; reflexivity |].
  edestruct (document_groups_shapes_by_dimension keep_text
               (fun b : string => b) (fun _ => "") svg_opts
               [svg_row (SvgFormat.VText "M 0 0 L 1 1") 1;
                svg_row (SvgFormat.VText "cx=1 cy=-2") 0]) as (H & _);
    [reflexivity | repeat constructor | | vm_compute; reflexivity |].
  - repeat constructor; vm_compute; eauto.
  - cbv zeta in H. rewrite H. vm_compute. reflexivity.
Defined.

(** ** Splitting and joining *)

Lemma split_not_empty sep s : JS.split sep s <> [].
Proof.
  destruct s as [| c rest]; simpl; [discriminate |].
  destruct (Ascii.eqb c sep); [discriminate |].
  destruct (JS.split sep rest); discriminate.
Qed.

Lemma split_pieces_have_no_separator sep s :
  Forall (fun piece => JS.occurs sep piece = false) (JS.split sep s).
Proof.
  induction s as [| c rest IH]; simpl; [repeat constructor |].
  destruct (Ascii.eqb c sep) eqn:Hc; [constructor; [reflexivity | exact IH] |].
  destruct (JS.split sep rest) as [| piece pieces].
  - repeat constructor. simpl. rewrite Hc. reflexivity.
  - inversion IH; subst. constructor; [| assumption].
    simpl. rewrite Hc. assumption.
Qed.

Lemma join_split sep s : JS.join (String sep "") (JS.split sep s) = s.
Proof.
  induction s as [| c rest IH]; simpl; [reflexivity |].
  destruct (Ascii.eqb c sep) eqn:Hc.
  - apply Ascii.eqb_eq in Hc as ->.
    pose proof (split_not_empty sep rest) as Hne.
    destruct (JS.split sep rest) as [| piece pieces]; [contradiction |].
    simpl in *. rewrite IH. reflexivity.
  - destruct (JS.split sep rest) as [| piece pieces].
    + simpl in IH. subst rest. reflexivity.
    + destruct pieces; simpl in *; rewrite <- IH; reflexivity.
Qed.

Lemma length_split sep s :
  length (JS.split sep s) = S (JS.count sep s).
Proof.
  induction s as [| c rest IH]; simpl; [reflexivity |].
  destruct (Ascii.eqb c sep); simpl; [rewrite IH; reflexivity |].
  destruct (JS.split sep rest); simpl in *; lia.
Qed.

Lemma append_assoc (a b c : string) : (a +:+ b) +:+ c = a +:+ (b +:+ c).
Proof.
  induction a as [| ch a IH]; [reflexivity |].
  change (String ch ((a +:+ b) +:+ c) = String ch (a +:+ (b +:+ c))).
  f_equal. exact IH.
Qed.

Lemma join_app sep a b :
  a <> [] -> b <> [] ->
  JS.join sep (a ++ b) = JS.join sep a +:+ sep +:+ JS.join sep b.
Proof.
  intros Ha Hb. induction a as [| x a IH]; [contradiction |].
  destruct a as [| y a].
  - simpl. destruct b; [contradiction | reflexivity].
  - change (JS.join sep ((x :: y :: a) ++ b))
      with (x +:+ sep +:+ JS.join sep ((y :: a) ++ b)).
    rewrite IH by discriminate.
    change (JS.join sep (x :: y :: a)) with (x +:+ sep +:+ JS.join sep (y :: a)).
    rewrite !append_assoc. reflexivity.
Qed.

Lemma fold_split_concat a acc :
  fold_left (fun acc ele => acc ++ JS.split "," ele) a acc
  = acc ++ concat (map (JS.split ",") a).
Proof.
  revert acc. induction a as [| ele a IH]; intros acc; simpl.
  - rewrite app_nil_r. reflexivity.
  - rewrite IH, app_assoc. reflexivity.
Qed.

Lemma join_concat_split a :
  JS.join "," (concat (map (JS.split ",") a)) = JS.join "," a.
Proof.
  induction a as [| ele a IH]; [reflexivity |].
  simpl concat. destruct a as [| ele' a].
  - simpl. rewrite app_nil_r. apply (join_split "," ele).
  - rewrite join_app.
    + rewrite IH, (join_split "," ele). reflexivity.
    + apply split_not_empty.
    + simpl. pose proof (split_not_empty "," ele') as Hne.
      destruct (JS.split "," ele'); [contradiction | discriminate].
Qed.

(** ** The query controller *)

(** X15. The fields to skip.  An absent or empty parameter gives no
    field.  A string gives one field more than it has commas, an array
    as many as its elements give together; the fields contain no comma,
    and joined by commas they give back the string, or the elements of
    the array joined by commas. *)
Theorem skipfields_round_trip (requested : QueryController.Param) :
  Forall (fun field => JS.occurs "," field = false)
    (QueryController.skipfields requested) /\
  match requested with
  | QueryController.PUndefined => QueryController.skipfields requested = []
  | QueryController.PString s =>
      JS.join "," (QueryController.skipfields requested) = s /\
      length (QueryController.skipfields requested)
      = (if bool_decide (s = "") then 0%nat else S (JS.count "," s))
  | QueryController.PArray a =>
      JS.join "," (QueryController.skipfields requested) = JS.join "," a /\
      length (QueryController.skipfields requested)
      = sum_list (map (fun ele => S (JS.count "," ele)) a)
  end.
Proof.
  destruct requested as [| s | a]; simpl.
  - split; [constructor | reflexivity].
  - destruct s as [| c rest]; [split; [constructor | split; reflexivity] |].
    split; [apply split_pieces_have_no_separator |].
    split; [apply (join_split ",") | apply (length_split ",")].
  - rewrite fold_split_concat. simpl.
    split; [| split; [apply join_concat_split |]].
    + induction a as [| ele a IH]; simpl; [constructor |].
      apply Forall_app. split; [apply split_pieces_have_no_separator | exact IH].
    + induction a as [| ele a IH]; simpl; [reflexivity |].
      rewrite length_app, IH, (length_split "," ele). reflexivity.
Qed.

(** X16. The [Cache-Control] header, for configured lifetimes that are
    integers printing in decimal.  With [cache_policy=persist] it is
    [public,max-age=31536000], whatever the tables and the configured
    lifetimes.  Otherwise it is [no-cache,max-age=N,must-revalidate,public]
    where N is the fallback ttl when the tables are unknown or one of
    them has no [updated_at], and else, an empty list of tables
    included, 0 for a query that may write and the ttl for one that may
    not. *)
Theorem cache_control_header cc policy tables mayWrite :
  JS.safe_integer (QueryController.ttl cc) ->
  JS.safe_integer (QueryController.fallbackTtl cc) ->
  let h := QueryController.cacheControlHeader cc policy tables mayWrite in
  if bool_decide (policy = Some "persist") then
    h = "public,max-age=31536000"
  else
    exists n,
      h = "no-cache,max-age=" +:+ pretty n +:+ ",must-revalidate,public" /\
      JS.safe_integer n /\
      match tables with
      | Some ts =>
          if bool_decide
               (Forall (fun table => QueryController.updated_at table <> None) ts)
          then n = (if mayWrite then 0 else QueryController.ttl cc)
          else n = QueryController.fallbackTtl cc
      | None => n = QueryController.fallbackTtl cc
      end.
Proof.
  intros Httl Hfall. unfold QueryController.cacheControlHeader. cbv zeta.
  destruct (bool_decide (policy = Some "persist")); [reflexivity |].
  destruct tables as [ts|]; [| eauto].
  assert (Hall : forallb (fun table =>
             bool_decide (QueryController.updated_at table <> None)) ts
           = bool_decide
               (Forall (fun table => QueryController.updated_at table <> None) ts)).
  { destruct (forallb _ ts) eqn:E; symmetry.
    - apply bool_decide_eq_true_2. apply Forall_forall. intros table Hin.
      apply list_elem_of_In in Hin.
      rewrite forallb_forall in E. specialize (E table Hin).
      apply bool_decide_eq_true in E. exact E.
    - apply bool_decide_eq_false_2. intros HF.
      rewrite Forall_forall in HF.
      assert (forallb (fun table =>
                bool_decide (QueryController.updated_at table <> None)) ts
              = true); [| congruence].
      apply forallb_forall. intros table Hin.
      apply bool_decide_eq_true_2. apply HF. apply list_elem_of_In. exact Hin. }
  rewrite Hall. destruct (bool_decide (Forall _ ts)).
  - exists (if mayWrite then 0 else QueryController.ttl cc).
    split; [reflexivity | split; [| reflexivity]].
    destruct mayWrite; [unfold JS.safe_integer; lia | exact Httl].
  - eauto.
Qed.

Lemma cache_control_header_witness :
  QueryController.cacheControlHeader
    {| QueryController.ttl := 31536000; QueryController.fallbackTtl := 300 |}
    None
    (Some [ {| QueryController.table_name := "untitle_table_4";
               QueryController.updated_at := Some 1234 |} ])
    true
  = "no-cache,max-age=0,must-revalidate,public".
Proof.
  pose proof (cache_control_header
    {| QueryController.ttl := 31536000; QueryController.fallbackTtl := 300 |}
    None
    (Some [ {| QueryController.table_name := "untitle_table_4";
               QueryController.updated_at := Some 1234 |} ])
    true) as H.
  cbv zeta in H.
  destruct H as (n & Hh & _ & Hn);
    [unfold JS.safe_integer; simpl; lia .. |].
  rewrite Hh. vm_compute in Hn. rewrite Hn. reflexivity.
Defined.

(** ** The pgbouncer reset *)

(** X17. [resetPgBouncerConnections] does nothing and reports no error
    when the two ports are equal.  Otherwise it sends [RESUME] exactly
    when [PAUSE] succeeded, ends the client exactly when it sent
    [RESUME] (after a failed [PAUSE] the client is left open), and the
    callback gets no error exactly when both statements succeeded. *)
Theorem reset_resumes_after_pause dbConfig pause resume :
  let out := DbUtils.resetPgBouncerConnections dbConfig pause resume in
  if bool_decide (DbUtils.db_port dbConfig = DbUtils.db_batch_port dbConfig)
  then out = ([], None)
  else
    existsb DbUtils.is_resume out.1 = bool_decide (pause = None) /\
    existsb DbUtils.is_end out.1 = bool_decide (pause = None) /\
    (out.2 = None <-> pause = None /\ resume = None) /\
    out.1 !! 2%nat = Some (DbUtils.ClientQuery "PAUSE" pause).
Proof.
  unfold DbUtils.resetPgBouncerConnections. cbv zeta.
  destruct (bool_decide _); [reflexivity |].
  destruct pause as [e|]; simpl; repeat split; try reflexivity;
    try (intros [? ?]; congruence); try congruence; tauto.
Qed.
